(** * A structured logging facade: level gate, entry construction,
      formatting, filtering and fan-out to transports.

    Shallow embedding of the two [Logger] classes of the repository:
    - [Logger] (src/index.ts, compiled to lib/index.js): level gate, entry
      construction, formatter, filters, isolated fan-out, child loggers,
      transport registry;
    - [SimpleLogger] (the second, smaller variant of the class): console
      echo and a plain loop over the transports.

    JavaScript objects that are mutated and shared are modelled with an
    explicit store: a transport array is a location in [arrays], a transport
    is an object identity ([TransportRef]) whose behaviour is looked up in
    [objects].  Everything observable is appended to a [trace].

    Filters and formatters are total functions of the entry.  Of a
    transport only [write] is modelled; [shutdown], [flush] and the
    console transport play no part in the properties below. *)

From Stdlib Require Import ZArith Ascii.
From stdpp Require Import base strings list gmap pretty.

Local Open Scope string_scope.
Local Open Scope list_scope.

(** ** Values of the host language *)

(** [unknown] values stored in a context object. *)
Inductive JsValue :=
| JsStr (s : string)
| JsNum (n : Z)
| JsBool (b : bool)
| JsNull.

Global Instance JsValue_eq_dec : EqDecision JsValue.
Proof. solve_decision. Defined.

(** [Record<string, unknown>]: an object used as a string-keyed map. *)
Abbreviation JsObject := (gmap string JsValue).

(** [Date]: milliseconds since the epoch. *)
Abbreviation Date := Z (only parsing).

(** [Error]: the three properties the code reads. *)
Record JsError := mkError {
  err_name : string;
  err_message : string;
  err_stack : option string
}.

(** [Error.prototype.toString], used by the template literal
    [`Transport error: ${error}`]. *)
Definition Error_toString (e : JsError) : string :=
  if String.eqb (err_name e) "" then err_message e
  else if String.eqb (err_message e) "" then err_name e
  else err_name e +:+ ": " +:+ err_message e.

(** A template literal prints an absent string property as [undefined]. *)
Definition template_str (o : option string) : string :=
  match o with
  | Some s => s
  | None => "undefined"
  end.

(** [String.prototype.toUpperCase] on ASCII text. *)
Definition upper_ascii (c : ascii) : ascii :=
  let n := nat_of_ascii c in
  if ((97 <=? n) && (n <=? 122))%nat then ascii_of_nat (n - 32) else c.

Fixpoint toUpperCase (s : string) : string :=
  match s with
  | EmptyString => EmptyString
  | String c s' => String (upper_ascii c) (toUpperCase s')
  end.

(** [String.prototype.includes] *)
Fixpoint includes (searchString s : string) : bool :=
  String.prefix searchString s ||
  match s with
  | EmptyString => false
  | String _ s' => includes searchString s'
  end.

(** Object spread: [{...a, ...b}] is [spread b (spread a ∅)]; spreading
    [undefined] adds nothing, a later source overwrites an earlier one. *)
Definition spread (src : option JsObject) (acc : JsObject) : JsObject :=
  match src with
  | Some o => o ∪ acc
  | None => acc
  end.

(** The builtins the formatter calls and the code does not define.
    [JSON_stringify] takes the object as a map: the order in which the
    keys of an object are enumerated is not modelled. *)
Class Host := {
  toISOString : Date → string;
  JSON_stringify : JsObject → string
}.

(** ** Data model *)

Inductive LogLevel := debug | info | warn | error | fatal.

Global Instance LogLevel_eq_dec : EqDecision LogLevel.
Proof. solve_decision. Defined.

(** The level is its own string literal at run time. *)
Definition LogLevel_str (l : LogLevel) : string :=
  match l with
  | debug => "debug"
  | info => "info"
  | warn => "warn"
  | error => "error"
  | fatal => "fatal"
  end.

Definition LOG_LEVEL_PRIORITY (l : LogLevel) : Z :=
  match l with
  | debug => 0
  | info => 1
  | warn => 2
  | error => 3
  | fatal => 4
  end.

Module LogEntry.
Record t := mk {
  level : LogLevel;
  message : string;
  timestamp : Date;
  context : option JsObject;
  error : option JsError;
  tags : option (list string);
  source : option string
}.

(** [{...entry, message: m}] *)
Definition with_message (entry : t) (m : string) : t :=
  {| level := level entry;
     message := m;
     timestamp := timestamp entry;
     context := context entry;
     error := error entry;
     tags := tags entry;
     source := source entry |}.
End LogEntry.

(** A settled (or never settling) promise. *)
Inductive Promise :=
| Fulfilled
| Rejected (e : JsError)
| Pending.

(** What a call [transport.write(entry)] does: it throws, or it returns a
    promise. *)
Inductive WriteOutcome :=
| Throws (e : JsError)
| Returns (p : Promise).

Record LogTransport := mkTransport {
  write : LogEntry.t → WriteOutcome
}.

(** Identity of a transport object, and of a transport array. *)
Abbreviation TransportRef := nat (only parsing).
Abbreviation ArrayRef := nat (only parsing).

Module LoggerConfig.
Record t := mk {
  minLevel : LogLevel;
  transports : ArrayRef;
  defaultContext : option JsObject;
  formatter : option (LogEntry.t → string);
  filters : option (list (LogEntry.t → bool))
}.
End LoggerConfig.

(** ** The world: store and trace *)

Inductive Stream := console_debug | console_info | console_warn | console_error.

Inductive Event :=
| EvNow                                        (* new Date() *)
| EvFormat (entry : LogEntry.t)                (* formatter(entry) *)
| EvFilter (i : nat) (entry : LogEntry.t)      (* filters[i](entry) *)
| EvWrite (t : TransportRef) (entry : LogEntry.t) (* transport.write(entry) *)
| EvConsole (s : Stream) (msg : string).       (* console.<s>(msg) *)

Record World := mkWorld {
  arrays : list (list TransportRef);
  objects : TransportRef → LogTransport;
  clock : Date;
  trace : list Event
}.

Definition emit (evs : list Event) (w : World) : World :=
  {| arrays := arrays w; objects := objects w; clock := clock w;
     trace := trace w ++ evs |}.

Definition set_arrays (w : World) (a : list (list TransportRef)) : World :=
  {| arrays := a; objects := objects w; clock := clock w; trace := trace w |}.

(** Reading an array through its reference. *)
Definition read_array (w : World) (a : ArrayRef) : list TransportRef :=
  default [] (arrays w !! a).

(** An array literal allocates a new array. *)
Definition new_array (w : World) (ts : list TransportRef) : ArrayRef * World :=
  (length (arrays w), set_arrays w (arrays w ++ [ts])).

(** [array.push(t)] mutates the array in place. *)
Definition array_push (w : World) (a : ArrayRef) (t : TransportRef) : World :=
  set_arrays w (<[a := read_array w a ++ [t]]> (arrays w)).

(** What was appended to the trace between two worlds. *)
Definition emitted (w w' : World) : list Event :=
  drop (length (trace w)) (trace w').

(** [Promise.all]: rejected as soon as one member is rejected (the first
    one in list order stands for the first one in time), fulfilled once all
    are fulfilled, pending otherwise. *)
Fixpoint Promise_all (ps : list Promise) : Promise :=
  match ps with
  | [] => Fulfilled
  | p :: ps' =>
      match p, Promise_all ps' with
      | Rejected e, _ => Rejected e
      | _, Rejected e => Rejected e
      | Pending, _ => Pending
      | Fulfilled, r => r
      end
  end.

(** ** The Logger of src/index.ts *)

Module Logger.

(** The private [config] as the constructor leaves it: [formatter] and
    [filters] are filled in, which is what the non-null assertions of
    [writeToTransports] rely on. *)
Record t := mk {
  minLevel : LogLevel;
  transports : ArrayRef;
  defaultContext : option JsObject;
  formatter : LogEntry.t → string;
  filters : list (LogEntry.t → bool)
}.

(** [this.config] read back as a [LoggerConfig], for [{...this.config}]. *)
Definition config (lg : t) : LoggerConfig.t :=
  {| LoggerConfig.minLevel := minLevel lg;
     LoggerConfig.transports := transports lg;
     LoggerConfig.defaultContext := defaultContext lg;
     LoggerConfig.formatter := Some (formatter lg);
     LoggerConfig.filters := Some (filters lg) |}.

Section WithHost.
Context `{Host}.

Definition defaultFormatter (entry : LogEntry.t) : string :=
  let context :=
    match LogEntry.context entry with
    | Some c => " " +:+ JSON_stringify c
    | None => ""
    end in
  let error :=
    match LogEntry.error entry with
    | Some e => " " +:+ template_str (err_stack e)
    | None => ""
    end in
  "[" +:+ toISOString (LogEntry.timestamp entry) +:+ "] "
    +:+ toUpperCase (LogLevel_str (LogEntry.level entry)) +:+ ": "
    +:+ LogEntry.message entry +:+ context +:+ error.

(** [constructor(config)]: the array reference is copied as it is. *)
Definition new (config : LoggerConfig.t) : t :=
  {| minLevel := LoggerConfig.minLevel config;
     transports := LoggerConfig.transports config;
     defaultContext := LoggerConfig.defaultContext config;
     formatter := default defaultFormatter (LoggerConfig.formatter config);
     filters := default [] (LoggerConfig.filters config) |}.

Definition shouldLog (lg : t) (level : LogLevel) : bool :=
  (LOG_LEVEL_PRIORITY level >=? LOG_LEVEL_PRIORITY (minLevel lg))%Z.

(** [filters.every(filter => filter(formattedEntry))]: in list order,
    stopping at the first filter that answers false. *)
Fixpoint every (fs : list (LogEntry.t → bool)) (i : nat) (entry : LogEntry.t)
  : bool * list Event :=
  match fs with
  | [] => (true, [])
  | f :: fs' =>
      let r := if f entry then every fs' (S i) entry else (false, []) in
      (r.1, EvFilter i entry :: r.2)
  end.

Definition transport_error (e : JsError) : Event :=
  EvConsole console_error ("Transport error: " +:+ Error_toString e).

(** The callback of [transports.map] up to its [await]: the call of
    [write], and the [catch] block at once when [write] throws. *)
Definition start_write (w : World) (formattedEntry : LogEntry.t) (t : TransportRef)
  : list Event :=
  EvWrite t formattedEntry ::
    match write (objects w t) formattedEntry with
    | Throws e => [transport_error e]
    | Returns _ => []
    end.

(** The rest of the callback: the [catch] block when the awaited
    promise is rejected. *)
Definition settle_write (w : World) (formattedEntry : LogEntry.t) (t : TransportRef)
  : list Event :=
  match write (objects w t) formattedEntry with
  | Returns (Rejected e) => [transport_error e]
  | _ => []
  end.

(** The promise the callback returns. *)
Definition write_promise (w : World) (formattedEntry : LogEntry.t) (t : TransportRef)
  : Promise :=
  match write (objects w t) formattedEntry with
  | Returns Pending => Pending
  | _ => Fulfilled
  end.

Definition writeToTransports (lg : t) (w : World) (entry : LogEntry.t)
  : Promise * World :=
  let formattedEntry := LogEntry.with_message entry (formatter lg entry) in
  let w := emit [EvFormat entry] w in
  let passed := every (filters lg) 0 formattedEntry in
  let w := emit passed.2 w in
  if negb passed.1 then (Fulfilled, w)
  else
    let ts := read_array w (transports lg) in
    let w := emit (ts ≫= start_write w formattedEntry) w in
    let writePromises := map (write_promise w formattedEntry) ts in
    let w := emit (ts ≫= settle_write w formattedEntry) w in
    (Promise_all writePromises, w).

(** The object literal built by [log]. *)
Definition log_entry (lg : t) (now : Date) (level : LogLevel) (message : string)
    (context : option JsObject) (error : option JsError) : LogEntry.t :=
  {| LogEntry.level := level;
     LogEntry.message := message;
     LogEntry.timestamp := now;
     LogEntry.context := Some (spread context (spread (defaultContext lg) ∅));
     LogEntry.error := error;
     LogEntry.tags := Some [];
     LogEntry.source := Some "application" |}.

Definition log (lg : t) (w : World) (level : LogLevel) (message : string)
    (context : option JsObject) (error : option JsError) : Promise * World :=
  if negb (shouldLog lg level) then (Fulfilled, w)
  else
    let w := emit [EvNow] w in
    let entry := log_entry lg (clock w) level message context error in
    writeToTransports lg w entry.

Definition child (lg : t) (defaultContext' : JsObject) : t :=
  let c := config lg in
  new {| LoggerConfig.minLevel := LoggerConfig.minLevel c;
         LoggerConfig.transports := LoggerConfig.transports c;
         LoggerConfig.defaultContext :=
           Some (spread (Some defaultContext') (spread (defaultContext lg) ∅));
         LoggerConfig.formatter := LoggerConfig.formatter c;
         LoggerConfig.filters := LoggerConfig.filters c |}.

Definition addTransport (lg : t) (w : World) (transport : TransportRef) : World :=
  array_push w (transports lg) transport.

(** [filter] builds a new array, which is then assigned to
    [this.config.transports]. *)
Definition removeTransport (lg : t) (w : World) (transport : TransportRef)
  : t * World :=
  let r := new_array w (filter (λ t, t ≠ transport) (read_array w (transports lg))) in
  ({| minLevel := minLevel lg;
      transports := r.1;
      defaultContext := defaultContext lg;
      formatter := formatter lg;
      filters := filters lg |}, r.2).

(** The transports a logger currently dispatches to. *)
Definition transports_of (lg : t) (w : World) : list TransportRef :=
  read_array w (transports lg).

Definition debug (lg : t) (w : World) (message : string) (context : option JsObject) :=
  log lg w debug message context None.
Definition info (lg : t) (w : World) (message : string) (context : option JsObject) :=
  log lg w info message context None.
Definition warn (lg : t) (w : World) (message : string) (context : option JsObject) :=
  log lg w warn message context None.
Definition error (lg : t) (w : World) (message : string) (err : option JsError)
    (context : option JsObject) :=
  log lg w error message context err.
Definition fatal (lg : t) (w : World) (message : string) (err : option JsError)
    (context : option JsObject) :=
  log lg w fatal message context err.
End WithHost.

(** [transports.filter(transport => transport.shutdown)]: the transports
    that have a [shutdown] member, each with what a call of it does.  The
    optional member is given by [hooks]. *)
Definition with_shutdown (hooks : TransportRef → option WriteOutcome)
    (ts : list TransportRef) : list (TransportRef * WriteOutcome) :=
  omap (λ t, pair t <$> hooks t) ts.

(** [.map(transport => transport.shutdown!())]: the hooks are called in
    list order; an exception leaves [map] with the promises collected so
    far dropped.  The second component lists the transports whose hook was
    called. *)
Fixpoint map_shutdown (hs : list (TransportRef * WriteOutcome))
  : (JsError + list Promise) * list TransportRef :=
  match hs with
  | [] => (inr [], [])
  | (t, Throws e) :: _ => (inl e, [t])
  | (t, Returns p) :: hs' =>
      let r := map_shutdown hs' in
      (match r.1 with
       | inl e => inl e
       | inr ps => inr (p :: ps)
       end, t :: r.2)
  end.

Definition shutdown (lg : t) (w : World) (hooks : TransportRef → option WriteOutcome)
  : Promise * list TransportRef :=
  let r := map_shutdown (with_shutdown hooks (read_array w (transports lg))) in
  (match r.1 with
   | inl e => Rejected e
   | inr shutdownPromises => Promise_all shutdownPromises
   end, r.2).
End Logger.

(** ** The Logger of the second variant *)

Module SimpleLogger.

(** [this.config = config]: the configuration object as given. *)
Record t := mk { config : LoggerConfig.t }.

Definition new (config : LoggerConfig.t) : t := mk config.

Definition consoleFunction (level : LogLevel) : Stream :=
  if decide (level = debug) then console_debug
  else if decide (level = info) then console_info
  else if decide (level = warn) then console_warn
  else console_error.

(** [for (const transport of transports) transport.write(entry)]: the
    returned promises are dropped; an exception leaves the loop and
    rejects the promise of [log]. *)
Fixpoint write_loop (w : World) (entry : LogEntry.t) (ts : list TransportRef)
  : Promise * list Event :=
  match ts with
  | [] => (Fulfilled, [])
  | t :: ts' =>
      match write (objects w t) entry with
      | Throws e => (Rejected e, [EvWrite t entry])
      | Returns _ =>
          let r := write_loop w entry ts' in
          (r.1, EvWrite t entry :: r.2)
      end
  end.

Definition log (lg : t) (w : World) (level : LogLevel) (message : string)
    (context : option JsObject) : Promise * World :=
  let fullMessage := message in
  let w := emit [EvConsole (consoleFunction level) fullMessage] w in
  let w := emit [EvNow] w in
  let entry :=
    {| LogEntry.level := level;
       LogEntry.message := message;
       LogEntry.timestamp := clock w;
       LogEntry.context := context;
       LogEntry.error := None;
       LogEntry.tags := None;
       LogEntry.source := None |} in
  let r := write_loop w entry (read_array w (LoggerConfig.transports (config lg))) in
  (r.1, emit r.2 w).

Definition child (lg : t) (defaultContexts : JsObject) : t :=
  let c := config lg in
  new {| LoggerConfig.minLevel := LoggerConfig.minLevel c;
         LoggerConfig.transports := LoggerConfig.transports c;
         LoggerConfig.defaultContext :=
           Some (spread (Some defaultContexts) (spread (LoggerConfig.defaultContext c) ∅));
         LoggerConfig.formatter := LoggerConfig.formatter c;
         LoggerConfig.filters := LoggerConfig.filters c |}.

Definition addTransport (lg : t) (w : World) (transport : TransportRef) : World :=
  array_push w (LoggerConfig.transports (config lg)) transport.

Definition removeTransport (lg : t) (w : World) (transport : TransportRef)
  : t * World :=
  let c := config lg in
  let r := new_array w (filter (λ item, item ≠ transport)
                               (read_array w (LoggerConfig.transports c))) in
  (mk {| LoggerConfig.minLevel := LoggerConfig.minLevel c;
         LoggerConfig.transports := r.1;
         LoggerConfig.defaultContext := LoggerConfig.defaultContext c;
         LoggerConfig.formatter := LoggerConfig.formatter c;
         LoggerConfig.filters := LoggerConfig.filters c |}, r.2).

Definition transports_of (lg : t) (w : World) : list TransportRef :=
  read_array w (LoggerConfig.transports (config lg)).

Definition debug (lg : t) (w : World) (message : string) (context : option JsObject) :=
  log lg w debug message context.
Definition info (lg : t) (w : World) (message : string) (context : option JsObject) :=
  log lg w info message context.
Definition warn (lg : t) (w : World) (message : string) (context : option JsObject) :=
  log lg w warn message context.
(** The [error] argument is not passed on. *)
Definition error (lg : t) (w : World) (message : string) (err : option JsError)
    (context : option JsObject) :=
  log lg w error message context.
End SimpleLogger.

(** ** The console transport of src/index.ts *)

Module ConsoleTransport.

(** The arguments a console call gets after the message. *)
Inductive Arg :=
| ArgContext (context : option JsObject)
| ArgError (error : option JsError).

(** One call [console.<stream>(text, ...args)]. *)
Record Call := mkCall {
  stream : Stream;
  text : string;
  args : list Arg
}.

Section WithHost.
Context `{Host}.

(** The console call [write] makes before its promise is fulfilled. *)
Definition write (entry : LogEntry.t) : Call :=
  let message :=
    "[" +:+ toISOString (LogEntry.timestamp entry) +:+ "] "
      +:+ toUpperCase (LogLevel_str (LogEntry.level entry)) +:+ ": "
      +:+ LogEntry.message entry in
  match LogEntry.level entry with
  | debug => mkCall console_debug message [ArgContext (LogEntry.context entry)]
  | info => mkCall console_info message [ArgContext (LogEntry.context entry)]
  | warn => mkCall console_warn message [ArgContext (LogEntry.context entry)]
  | error | fatal =>
      mkCall console_error message
        [ArgError (LogEntry.error entry); ArgContext (LogEntry.context entry)]
  end.
End WithHost.
End ConsoleTransport.

(** ** What an observer of the trace sees *)

(** An entry was handed to the formatter, to a filter or to a transport. *)
Definition observed (entry : LogEntry.t) (evs : list Event) : Prop :=
  EvFormat entry ∈ evs ∨ (∃ i, EvFilter i entry ∈ evs) ∨ (∃ t, EvWrite t entry ∈ evs).

(** The [write] calls of a trace, in order. *)
Definition writes_of (evs : list Event) : list (TransportRef * LogEntry.t) :=
  omap (λ ev, match ev with EvWrite t e => Some (t, e) | _ => None end) evs.

(** The filter calls of a trace, in order. *)
Definition filter_calls_of (evs : list Event) : list (nat * LogEntry.t) :=
  omap (λ ev, match ev with EvFilter i e => Some (i, e) | _ => None end) evs.

(** ** A caller's later calls on one logger *)

Inductive LoggerCall :=
| CallLog (level : LogLevel) (message : string) (context : option JsObject)
    (err : option JsError)
| CallAddTransport (transport : TransportRef)
| CallRemoveTransport (transport : TransportRef).

(** The calls made one after the other on the logger, each [log] awaited
    before the next call. *)
Fixpoint calls (lg : Logger.t) (w : World) (cs : list LoggerCall)
  : Logger.t * World :=
  match cs with
  | [] => (lg, w)
  | CallLog level message context err :: cs' =>
      calls lg (Logger.log lg w level message context err).2 cs'
  | CallAddTransport transport :: cs' =>
      calls lg (Logger.addTransport lg w transport) cs'
  | CallRemoveTransport transport :: cs' =>
      let r := Logger.removeTransport lg w transport in
      calls r.1 r.2 cs'
  end.

(** Reading one key of an optional object. *)
Definition lookup_key (o : option JsObject) (k : string) : option JsValue :=
  o ≫= (λ m, m !! k).

(** The default formatter as the specification words it: the context is
    rendered only when it is present and non-empty.  Compared with
    [Logger.defaultFormatter] below. *)
Definition defaultFormatter_as_specified `{Host} (entry : LogEntry.t) : string :=
  let context :=
    match LogEntry.context entry with
    | Some c => if decide (c = ∅) then "" else " " +:+ JSON_stringify c
    | None => ""
    end in
  let error :=
    match LogEntry.error entry with
    | Some e => " " +:+ template_str (err_stack e)
    | None => ""
    end in
  "[" +:+ toISOString (LogEntry.timestamp entry) +:+ "] "
    +:+ toUpperCase (LogLevel_str (LogEntry.level entry)) +:+ ": "
    +:+ LogEntry.message entry +:+ context +:+ error.

(** ** Fixtures for the closed examples *)

Module Fixture.

Definition quote : string := String (ascii_of_nat 34) EmptyString.

Definition render (v : JsValue) : string :=
  match v with
  | JsStr s => quote +:+ s +:+ quote
  | JsNum n => pretty n
  | JsBool true => "true"
  | JsBool false => "false"
  | JsNull => "null"
  end.

Fixpoint members (kvs : list (string * JsValue)) : string :=
  match kvs with
  | [] => ""
  | [(k, v)] => quote +:+ k +:+ quote +:+ ":" +:+ render v
  | (k, v) :: kvs' =>
      quote +:+ k +:+ quote +:+ ":" +:+ render v +:+ "," +:+ members kvs'
  end.

(** A host whose clock stands at the epoch and whose JSON rendering
    covers plain keys and values. *)
Definition host : Host :=
  {| toISOString := λ _, "1970-01-01T00:00:00.000Z";
     JSON_stringify := λ o, "{" +:+ members (map_to_list o) +:+ "}" |}.

Definition boom : JsError :=
  mkError "Error" "boom" (Some "Error: boom").

(** Transport 1 throws, transport 2 returns a rejected promise, every
    other transport writes successfully. *)
Definition transport_objects (t : TransportRef) : LogTransport :=
  match t with
  | 1 => mkTransport (λ _, Throws boom)
  | 2 => mkTransport (λ _, Returns (Rejected boom))
  | _ => mkTransport (λ _, Returns Fulfilled)
  end.

Definition world (ts : list TransportRef) : World :=
  {| arrays := [ts]; objects := transport_objects; clock := 0; trace := [] |}.

(** [(entry) => !entry.message.includes('password')] *)
Definition no_password (entry : LogEntry.t) : bool :=
  negb (includes "password" (LogEntry.message entry)).

(** The configuration of the example in the source, with its transport
    array at reference 0. *)
Definition config : LoggerConfig.t :=
  {| LoggerConfig.minLevel := info;
     LoggerConfig.transports := 0;
     LoggerConfig.defaultContext := Some {["app" := JsStr "MyApp"]};
     LoggerConfig.formatter := None;
     LoggerConfig.filters := Some [no_password] |}.

Definition logger : Logger.t := @Logger.new host config.

Definition no_secret (entry : LogEntry.t) : bool :=
  negb (includes "secret" (LogEntry.message entry)).

Definition no_token (entry : LogEntry.t) : bool :=
  negb (includes "token" (LogEntry.message entry)).

(** A logger with three filters in a row. *)
Definition guarded_logger : Logger.t :=
  @Logger.new host
    {| LoggerConfig.minLevel := info;
       LoggerConfig.transports := 0;
       LoggerConfig.defaultContext := None;
       LoggerConfig.formatter := None;
       LoggerConfig.filters := Some [no_password; no_secret; no_token] |}.
End Fixture.

(** * Facts about the store and the trace *)

Lemma emitted_app w w' evs : trace w' = trace w ++ evs → emitted w w' = evs.
Proof. intros E. unfold emitted. rewrite E. apply drop_app_length. Qed.

Lemma read_array_new w ts : read_array (new_array w ts).2 (new_array w ts).1 = ts.
Proof.
  unfold read_array, new_array; simpl.
  rewrite lookup_app_r by lia.
  by rewrite Nat.sub_diag.
Qed.


Lemma read_array_push w a t :
  a < length (arrays w) → read_array (array_push w a t) a = read_array w a ++ [t].
Proof.
  intros Ha. unfold array_push, read_array at 1; simpl.
  by rewrite list_lookup_insert_eq.
Qed.


(** * Facts about the pipeline of [Logger] *)

Lemma every_fst fs i entry :
  (Logger.every fs i entry).1 = forallb (λ f, f entry) fs.
Proof.
  revert i. induction fs as [|f fs IH]; intros i; simpl; [done|].
  destruct (f entry); simpl; [apply IH | done].
Qed.

Lemma every_events fs i entry ev :
  ev ∈ (Logger.every fs i entry).2 → ∃ j, ev = EvFilter j entry.
Proof.
  revert i. induction fs as [|f fs IH]; intros i; simpl.
  - by intros ?%elem_of_nil.
  - intros [->|Hin]%elem_of_cons; [by eexists|].
    destruct (f entry); simpl in Hin; [by eapply IH | by apply elem_of_nil in Hin].
Qed.

Lemma every_first f fs i entry :
  EvFilter i entry ∈ (Logger.every (f :: fs) i entry).2.
Proof. simpl. apply elem_of_cons; by left. Qed.

Lemma forallb_filters (fs : list (LogEntry.t → bool)) entry :
  forallb (λ f, f entry) fs = true ↔ ∀ f, f ∈ fs → f entry = true.
Proof.
  rewrite forallb_forall. split; intros Hall f Hf; apply Hall.
  - by apply list_elem_of_In.
  - by apply list_elem_of_In.
Qed.

Lemma start_write_events w fe (ts : list nat) ev :
  ev ∈ ts ≫= Logger.start_write w fe ↔
  ∃ t, t ∈ ts ∧ (ev = EvWrite t fe ∨
                 ∃ e, write (objects w t) fe = Throws e ∧ ev = Logger.transport_error e).
Proof.
  rewrite list_elem_of_bind. split.
  - intros (t & Hev & Ht).
    exists t; split; [done|]. unfold Logger.start_write in Hev.
    apply elem_of_cons in Hev as [->|Hev]; [by left|right].
    destruct (write (objects w t) fe) as [e|p] eqn:Hw.
    + apply list_elem_of_singleton in Hev as ->. by exists e.
    + by apply elem_of_nil in Hev.
  - intros (t & Ht & Hev). exists t. split; [|done].
    unfold Logger.start_write. destruct Hev as [->|(e & -> & ->)].
    + apply elem_of_cons; by left.
    + apply elem_of_cons; right. by apply list_elem_of_singleton.
Qed.

Lemma settle_write_events w fe (ts : list nat) ev :
  ev ∈ ts ≫= Logger.settle_write w fe ↔
  ∃ t e, t ∈ ts ∧ write (objects w t) fe = Returns (Rejected e)
         ∧ ev = Logger.transport_error e.
Proof.
  rewrite list_elem_of_bind. split.
  - intros (t & Hev & Ht).
    unfold Logger.settle_write in Hev.
    destruct (write (objects w t) fe) as [e|[|e|]] eqn:Hw;
      try (by apply elem_of_nil in Hev).
    apply list_elem_of_singleton in Hev as ->. by exists t, e.
  - intros (t & e & Ht & Hw & ->). exists t. split; [|done].
    unfold Logger.settle_write. rewrite Hw. by apply list_elem_of_singleton.
Qed.

(** The whole trace of one dispatch. *)
Lemma writeToTransports_trace lg w entry :
  let fe := LogEntry.with_message entry (Logger.formatter lg entry) in
  let ts := Logger.transports_of lg w in
  trace (Logger.writeToTransports lg w entry).2 =
    trace w ++
    EvFormat entry :: (Logger.every (Logger.filters lg) 0 fe).2 ++
      (if (Logger.every (Logger.filters lg) 0 fe).1
       then (ts ≫= Logger.start_write w fe) ++ (ts ≫= Logger.settle_write w fe)
       else []).
Proof.
  intros fe ts.
  unfold Logger.writeToTransports. fold fe.
  destruct (Logger.every (Logger.filters lg) 0 fe) as [[] evs]; simpl.
  - rewrite <- !app_assoc. reflexivity.
  - rewrite app_nil_r, <- app_assoc. reflexivity.
Qed.

Lemma writeToTransports_emitted lg w entry :
  let fe := LogEntry.with_message entry (Logger.formatter lg entry) in
  let ts := Logger.transports_of lg w in
  emitted w (Logger.writeToTransports lg w entry).2 =
    EvFormat entry :: (Logger.every (Logger.filters lg) 0 fe).2 ++
      (if (Logger.every (Logger.filters lg) 0 fe).1
       then (ts ≫= Logger.start_write w fe) ++ (ts ≫= Logger.settle_write w fe)
       else []).
Proof. intros fe ts. apply emitted_app, writeToTransports_trace. Qed.

Lemma log_gated lg w level message context err :
  Logger.shouldLog lg level = false →
  Logger.log lg w level message context err = (Fulfilled, w).
Proof. intros Hg. unfold Logger.log. by rewrite Hg. Qed.

Lemma log_emitted lg w level message context err :
  Logger.shouldLog lg level = true →
  emitted w (Logger.log lg w level message context err).2 =
    EvNow :: emitted w
      (Logger.writeToTransports lg w
         (Logger.log_entry lg (clock w) level message context err)).2.
Proof.
  intros Hg. rewrite writeToTransports_emitted.
  apply emitted_app.
  unfold Logger.log. rewrite Hg; simpl.
  rewrite writeToTransports_trace; simpl.
  rewrite <- app_assoc. reflexivity.
Qed.

(** Which events one dispatch can contain. *)
Lemma dispatch_format lg w entry e :
  EvFormat e ∈ emitted w (Logger.writeToTransports lg w entry).2 ↔ e = entry.
Proof.
  rewrite writeToTransports_emitted, elem_of_cons, elem_of_app. split.
  - intros [[= ->]|[Hin|Hin]]; [done|..].
    + by apply every_events in Hin as [j [=]].
    + destruct (Logger.every _ _ _).1; [|by apply elem_of_nil in Hin].
      apply elem_of_app in Hin as [Hin|Hin].
      * apply start_write_events in Hin as (t & _ & [[=]|(err & _ & [=])]).
      * apply settle_write_events in Hin as (t & err & _ & _ & [=]).
  - intros ->. by left.
Qed.

Lemma dispatch_filter lg w entry i e :
  EvFilter i e ∈ emitted w (Logger.writeToTransports lg w entry).2 →
  e = LogEntry.with_message entry (Logger.formatter lg entry).
Proof.
  rewrite writeToTransports_emitted, elem_of_cons, elem_of_app.
  intros [[=]|[Hin|Hin]].
  - by apply every_events in Hin as [j [= _ ->]].
  - destruct (Logger.every _ _ _).1; [|by apply elem_of_nil in Hin].
    apply elem_of_app in Hin as [Hin|Hin].
    + apply start_write_events in Hin as (t & _ & [[=]|(err & _ & [=])]).
    + apply settle_write_events in Hin as (t & err & _ & _ & [=]).
Qed.

Lemma dispatch_write lg w entry t e :
  EvWrite t e ∈ emitted w (Logger.writeToTransports lg w entry).2 ↔
  e = LogEntry.with_message entry (Logger.formatter lg entry)
  ∧ t ∈ Logger.transports_of lg w
  ∧ forallb (λ f, f e) (Logger.filters lg) = true.
Proof.
  rewrite writeToTransports_emitted, elem_of_cons, elem_of_app, every_fst. split.
  - intros [[=]|[Hin|Hin]].
    + by apply every_events in Hin as [j [=]].
    + destruct (forallb _ _) eqn:Hall; [|by apply elem_of_nil in Hin].
      apply elem_of_app in Hin as [Hin|Hin].
      * apply start_write_events in Hin as (t' & Ht' & [[= -> ->]|(err & _ & [=])]).
        done.
      * apply settle_write_events in Hin as (t' & err & _ & _ & [=]).
  - intros (-> & Ht & Hall). right; right. rewrite Hall.
    apply elem_of_app; left. apply start_write_events. exists t; split; [done|by left].
Qed.

Lemma observed_cons_now entry evs :
  observed entry (EvNow :: evs) ↔ observed entry evs.
Proof.
  unfold observed. split.
  - intros [Hf|[[i Hf]|[t Hw]]].
    + apply elem_of_cons in Hf as [[=]|Hf]. by left.
    + apply elem_of_cons in Hf as [[=]|Hf]. right; left. by exists i.
    + apply elem_of_cons in Hw as [[=]|Hw]. right; right. by exists t.
  - intros [Hf|[[i Hf]|[t Hw]]].
    + left. apply elem_of_cons; by right.
    + right; left. exists i. apply elem_of_cons; by right.
    + right; right. exists t. apply elem_of_cons; by right.
Qed.

(** Every entry one [log] call shows to anybody is the built entry or its
    formatted copy. *)
Lemma log_observed lg w level message context err e :
  Logger.shouldLog lg level = true →
  observed e (emitted w (Logger.log lg w level message context err).2) →
  let entry := Logger.log_entry lg (clock w) level message context err in
  e = entry ∨ e = LogEntry.with_message entry (Logger.formatter lg entry).
Proof.
  intros Hg Hobs entry. subst entry. rewrite log_emitted in Hobs by done.
  apply (proj1 (observed_cons_now _ _)) in Hobs.
  destruct Hobs as [Hf|[[i Hf]|[t Hw]]].
  - left. by apply dispatch_format in Hf.
  - right. by apply dispatch_filter in Hf.
  - right. by apply dispatch_write in Hw as (-> & _).
Qed.

Lemma log_formats lg w level message context err :
  Logger.shouldLog lg level = true →
  EvFormat (Logger.log_entry lg (clock w) level message context err)
    ∈ emitted w (Logger.log lg w level message context err).2.
Proof.
  intros Hg. rewrite log_emitted by done.
  apply elem_of_cons; right. by apply dispatch_format.
Qed.

Lemma lookup_spread src acc k :
  spread src acc !! k =
    match lookup_key src k with
    | Some v => Some v
    | None => acc !! k
    end.
Proof.
  destruct src as [o|]; simpl; [|done].
  rewrite lookup_union. by destruct (o !! k), (acc !! k).
Qed.

(** * The level gate *)

(** C2: [shouldLog] answers true exactly when the priority of the level is
    at least that of [minLevel], under debug=0, info=1, warn=2, error=3,
    fatal=4; a [log] call below the threshold changes nothing: the clock is
    not read, no formatter or filter runs, no transport is written to, and
    the call resolves. *)
Theorem shouldLog_gate lg w level message context err :
  (LOG_LEVEL_PRIORITY debug = 0 ∧ LOG_LEVEL_PRIORITY info = 1
   ∧ LOG_LEVEL_PRIORITY warn = 2 ∧ LOG_LEVEL_PRIORITY error = 3
   ∧ LOG_LEVEL_PRIORITY fatal = 4)%Z
  ∧ (Logger.shouldLog lg level = true ↔
     (LOG_LEVEL_PRIORITY level >= LOG_LEVEL_PRIORITY (Logger.minLevel lg))%Z)
  ∧ ((LOG_LEVEL_PRIORITY level < LOG_LEVEL_PRIORITY (Logger.minLevel lg))%Z →
     Logger.log lg w level message context err = (Fulfilled, w)
     ∧ emitted w (Logger.log lg w level message context err).2 = []).
Proof.
  split; [done|]. split.
  - unfold Logger.shouldLog. rewrite Z.geb_leb, Z.leb_le. lia.
  - intros Hlt.
    assert (Logger.shouldLog lg level = false) as Hg.
    { unfold Logger.shouldLog. rewrite Z.geb_leb. apply Z.leb_gt. lia. }
    rewrite log_gated by done. split; [done|].
    unfold emitted; simpl. apply drop_all.
Qed.

Lemma shouldLog_gate_witness :
  Logger.log Fixture.logger (Fixture.world [3]) debug "not printed" None None
  = (Fulfilled, Fixture.world [3]).
Proof.
  destruct (shouldLog_gate Fixture.logger (Fixture.world [3]) debug "not printed"
              None None) as (_ & _ & Hdrop).
  apply Hdrop. reflexivity.
Defined.

(** * Filtering *)

(** C3: a registered transport is handed the formatted entry exactly when
    every filter answers true on it; when some filter answers false, no
    transport at all is written to. *)
Theorem filters_gate_delivery lg w entry t :
  t ∈ Logger.transports_of lg w →
  let fe := LogEntry.with_message entry (Logger.formatter lg entry) in
  let evs := emitted w (Logger.writeToTransports lg w entry).2 in
  (EvWrite t fe ∈ evs ↔ ∀ f, f ∈ Logger.filters lg → f fe = true)
  ∧ ((∃ f, f ∈ Logger.filters lg ∧ f fe = false) →
     ∀ t' e', EvWrite t' e' ∉ evs).
Proof.
  intros Ht fe evs. split.
  - unfold evs. rewrite dispatch_write, <- forallb_filters.
    split; [by intros (_ & _ & Hall) | by intros Hall].
  - intros (f & Hf & Hfalse) t' e' Hin.
    apply dispatch_write in Hin as (-> & _ & Hall).
    rewrite forallb_filters in Hall. apply Hall in Hf. fold fe in Hf. congruence.
Qed.

Lemma filters_gate_delivery_witness :
  let entry := Logger.log_entry Fixture.logger 0 error "Failed to save" None None in
  EvWrite 3 (LogEntry.with_message entry (Logger.formatter Fixture.logger entry))
    ∈ emitted (Fixture.world [1; 2; 3])
        (Logger.writeToTransports Fixture.logger (Fixture.world [1; 2; 3]) entry).2.
Proof.
  intros entry.
  assert (3 ∈ Logger.transports_of Fixture.logger (Fixture.world [1; 2; 3])) as Hin.
  { apply elem_of_cons; right. apply elem_of_cons; right. apply elem_of_cons; by left. }
  destruct (filters_gate_delivery Fixture.logger (Fixture.world [1; 2; 3]) entry 3 Hin)
    as [Hiff _].
  apply Hiff. intros f Hf. apply list_elem_of_singleton in Hf as ->. reflexivity.
Defined.

(** * Formatting *)

(** C4: for a level that passes the gate, the formatter is called once, on
    the built entry; the formatted entry is that entry with [message]
    replaced by the formatter's answer and every other field kept; every
    filter call and every transport write of the dispatch carries the
    formatted entry, the first filter does run, and when the filters pass
    each registered transport is written the formatted entry. *)
Theorem formatted_entry_observed lg w level message context err :
  Logger.shouldLog lg level = true →
  let entry := Logger.log_entry lg (clock w) level message context err in
  let fe := LogEntry.with_message entry (Logger.formatter lg entry) in
  let evs := emitted w (Logger.log lg w level message context err).2 in
  (LogEntry.message fe = Logger.formatter lg entry
   ∧ LogEntry.level fe = LogEntry.level entry
   ∧ LogEntry.timestamp fe = LogEntry.timestamp entry
   ∧ LogEntry.context fe = LogEntry.context entry
   ∧ LogEntry.error fe = LogEntry.error entry
   ∧ LogEntry.tags fe = LogEntry.tags entry
   ∧ LogEntry.source fe = LogEntry.source entry)
  ∧ (∀ e, EvFormat e ∈ evs ↔ e = entry)
  ∧ (∀ i e, EvFilter i e ∈ evs → e = fe)
  ∧ (∀ t e, EvWrite t e ∈ evs → e = fe)
  ∧ (Logger.filters lg ≠ [] → EvFilter 0 fe ∈ evs)
  ∧ ((∀ f, f ∈ Logger.filters lg → f fe = true) →
     ∀ t, t ∈ Logger.transports_of lg w → EvWrite t fe ∈ evs).
Proof.
  intros Hg entry fe evs.
  assert (evs = EvNow :: emitted w (Logger.writeToTransports lg w entry).2) as Hevs
    by (by apply log_emitted).
  split; [done|]. rewrite Hevs. repeat split.
  - intros [[=]|Hin]%elem_of_cons. by apply dispatch_format in Hin.
  - intros ->. apply elem_of_cons; right. by apply dispatch_format.
  - intros i e [[=]|Hin]%elem_of_cons. by apply dispatch_filter in Hin.
  - intros t e [[=]|Hin]%elem_of_cons. by apply dispatch_write in Hin as (-> & _).
  - intros Hne. apply elem_of_cons; right.
    rewrite writeToTransports_emitted. apply elem_of_cons; right.
    apply elem_of_app; left. fold fe.
    destruct (Logger.filters lg) as [|f fs]; [done|]. apply every_first.
  - intros Hall t Ht. apply elem_of_cons; right.
    apply dispatch_write. by rewrite forallb_filters.
Qed.

Lemma formatted_entry_observed_witness :
  let entry := Logger.log_entry Fixture.logger 0 error "Failed to save" None None in
  EvWrite 3 (LogEntry.with_message entry (Logger.formatter Fixture.logger entry))
    ∈ emitted (Fixture.world [1; 2; 3])
        (Logger.log Fixture.logger (Fixture.world [1; 2; 3]) error
           "Failed to save" None None).2.
Proof.
  intros entry.
  destruct (formatted_entry_observed Fixture.logger (Fixture.world [1; 2; 3])
              error "Failed to save" None None eq_refl)
    as (_ & _ & _ & _ & _ & Hwrites).
  apply Hwrites.
  - intros f Hf. apply list_elem_of_singleton in Hf as ->. reflexivity.
  - apply elem_of_cons; right. apply elem_of_cons; right. apply elem_of_cons; by left.
Defined.

(** * Entry construction *)

(** The context of every entry one gate-passing [log] call shows. *)
Lemma log_observed_context lg w level message context err e :
  Logger.shouldLog lg level = true →
  observed e (emitted w (Logger.log lg w level message context err).2) →
  LogEntry.context e = Some (spread context (spread (Logger.defaultContext lg) ∅))
  ∧ ∀ k, lookup_key (LogEntry.context e) k =
         match lookup_key context k with
         | Some v => Some v
         | None => lookup_key (Logger.defaultContext lg) k
         end.
Proof.
  intros Hg Hobs.
  assert (LogEntry.context e
          = Some (spread context (spread (Logger.defaultContext lg) ∅))) as Hctx.
  { by destruct (log_observed _ _ _ _ _ _ _ Hg Hobs) as [->| ->]. }
  split; [done|].
  intros k. rewrite Hctx. simpl. rewrite !lookup_spread.
  destruct (lookup_key context k); [done|].
  destruct (lookup_key (Logger.defaultContext lg) k); [done|].
  apply lookup_empty.
Qed.

(** C5: a [log] call that passes the gate builds an entry, and every entry
    the call shows to the formatter, a filter or a transport has as context
    the spread of [defaultContext] followed by the call-site context: a key
    reads as the call-site value when the call site binds it and as the
    default value otherwise, so the call site wins on a key bound by both. *)
Theorem log_context_merge lg w level message context err :
  Logger.shouldLog lg level = true →
  let evs := emitted w (Logger.log lg w level message context err).2 in
  (∃ e, EvFormat e ∈ evs)
  ∧ ∀ e, observed e evs →
      LogEntry.context e
        = Some (spread context (spread (Logger.defaultContext lg) ∅))
      ∧ (∀ k, lookup_key (LogEntry.context e) k =
              match lookup_key context k with
              | Some v => Some v
              | None => lookup_key (Logger.defaultContext lg) k
              end)
      ∧ (∀ k v v0, lookup_key context k = Some v →
                   lookup_key (Logger.defaultContext lg) k = Some v0 →
                   lookup_key (LogEntry.context e) k = Some v).
Proof.
  intros Hg evs. split.
  { eexists. by apply log_formats. }
  intros e Hobs.
  destruct (log_observed_context lg w level message context err e Hg Hobs)
    as [Hctx Hlook].
  split; [done|]. split; [done|].
  intros k v v0 Hk _. by rewrite Hlook, Hk.
Qed.

Lemma log_context_merge_witness :
  lookup_key
    (LogEntry.context
       (Logger.log_entry Fixture.logger 0 info "started"
          (Some {["app" := JsStr "Other"]}) None)) "app"
  = Some (JsStr "Other").
Proof.
  destruct (log_context_merge Fixture.logger (Fixture.world [3]) info "started"
              (Some {["app" := JsStr "Other"]}) None eq_refl) as [_ Hall].
  destruct (Hall _ (or_introl (log_formats Fixture.logger (Fixture.world [3]) info
                                 "started" (Some {["app" := JsStr "Other"]}) None
                                 eq_refl)))
    as (_ & _ & Hwins).
  apply (Hwins "app" (JsStr "Other") (JsStr "MyApp")); reflexivity.
Defined.

(** C10: a gate-passing [log] call builds an entry, and in every entry
    the call shows to anybody the context is a defined object, namely the
    merge result: the spread of [defaultContext] followed by the call-site
    context, which reads every key as the call-site value when the call
    site binds it and as the default value otherwise (so it is the empty
    object when neither a default nor a call-site context is given);
    [tags] is the empty array and [source] is the string application. *)
Theorem log_entry_defaults lg w level message context err :
  Logger.shouldLog lg level = true →
  let evs := emitted w (Logger.log lg w level message context err).2 in
  (∃ e, EvFormat e ∈ evs)
  ∧ ∀ e, observed e evs →
      is_Some (LogEntry.context e)
      ∧ LogEntry.tags e = Some []
      ∧ LogEntry.source e = Some "application"
      ∧ (Logger.defaultContext lg = None → context = None →
         LogEntry.context e = Some ∅)
      ∧ LogEntry.context e
        = Some (spread context (spread (Logger.defaultContext lg) ∅))
      ∧ ∃ m, LogEntry.context e = Some m
             ∧ ∀ k, m !! k =
                    match lookup_key context k with
                    | Some v => Some v
                    | None => lookup_key (Logger.defaultContext lg) k
                    end.
Proof.
  intros Hg evs. split.
  { eexists. by apply log_formats. }
  intros e Hobs.
  destruct (log_observed_context lg w level message context err e Hg Hobs)
    as [Hctx Hlook].
  assert (LogEntry.tags e = Some [] ∧ LogEntry.source e = Some "application")
    as [Ht Hs].
  { by destruct (log_observed _ _ _ _ _ _ _ Hg Hobs) as [->| ->]. }
  split; [rewrite Hctx; by eexists|]. split; [done|]. split; [done|].
  split; [intros Hd Hc; by rewrite Hctx, Hd, Hc|]. split; [done|].
  eexists. split; [exact Hctx|].
  intros k. specialize (Hlook k). by rewrite Hctx in Hlook.
Qed.

Lemma log_entry_defaults_witness :
  ∃ e, EvFormat e ∈ emitted (Fixture.world [3])
                      (Logger.log Fixture.logger (Fixture.world [3]) warn "slow"
                         (Some {["version" := JsStr "1.0.0"]}) None).2
       ∧ lookup_key (LogEntry.context e) "app" = Some (JsStr "MyApp")
       ∧ lookup_key (LogEntry.context e) "version" = Some (JsStr "1.0.0")
       ∧ lookup_key (LogEntry.context e) "userId" = None
       ∧ LogEntry.tags e = Some []
       ∧ LogEntry.source e = Some "application".
Proof.
  destruct (log_entry_defaults Fixture.logger (Fixture.world [3]) warn "slow"
              (Some {["version" := JsStr "1.0.0"]}) None eq_refl) as [[e He] Hall].
  exists e. split; [exact He|].
  destruct (Hall e (or_introl He)) as (_ & Ht & Hs & _ & _ & m & Hm & Hlook).
  rewrite Hm. simpl. rewrite !Hlook. by repeat split.
Defined.

(** * Child loggers *)

Lemma child_defaultContext `{Host} lg extra k :
  lookup_key (Logger.defaultContext (Logger.child lg extra)) k =
    match extra !! k with
    | Some v => Some v
    | None => lookup_key (Logger.defaultContext lg) k
    end.
Proof.
  change (lookup_key (Logger.defaultContext (Logger.child lg extra)) k)
    with (spread (Some extra) (spread (Logger.defaultContext lg) ∅) !! k).
  rewrite !lookup_spread. simpl.
  destruct (extra !! k); [done|].
  destruct (lookup_key (Logger.defaultContext lg) k); [done|].
  apply lookup_empty.
Qed.

Lemma child_shouldLog `{Host} lg extra level :
  Logger.shouldLog (Logger.child lg extra) level = Logger.shouldLog lg level.
Proof. reflexivity. Qed.

(** C7, as the code has it: the child's [defaultContext] is the spread of
    the parent's followed by [extra]; in every entry of a gate-passing
    [log] call on the child a key reads as the call-site value when the
    call site binds it, else as [extra]'s value when [extra] binds it, else
    as the parent's default.  So a key of [extra] that the call site does
    not bind again carries [extra]'s value, next to the parent's default
    keys that neither [extra] nor the call site rebinds, and a key bound
    again at the call site takes the call-site value; the same call on the
    parent shows no key that the parent's defaults and the call site
    lack. *)
Theorem child_context `{Host} lg extra w level message context err :
  Logger.shouldLog lg level = true →
  let c := Logger.child lg extra in
  Logger.defaultContext c
    = Some (spread (Some extra) (spread (Logger.defaultContext lg) ∅))
  ∧ (∃ e, EvFormat e ∈ emitted w (Logger.log c w level message context err).2)
  ∧ (∀ e, observed e (emitted w (Logger.log c w level message context err).2) →
       (∀ k, lookup_key (LogEntry.context e) k =
             match lookup_key context k with
             | Some v => Some v
             | None =>
                 match extra !! k with
                 | Some v => Some v
                 | None => lookup_key (Logger.defaultContext lg) k
                 end
             end)
       ∧ (∀ k v, extra !! k = Some v → lookup_key context k = None →
                 lookup_key (LogEntry.context e) k = Some v)
       ∧ (∀ k v, lookup_key context k = Some v →
                 lookup_key (LogEntry.context e) k = Some v)
       ∧ (∀ k v, lookup_key (Logger.defaultContext lg) k = Some v →
                 extra !! k = None → lookup_key context k = None →
                 lookup_key (LogEntry.context e) k = Some v))
  ∧ (∀ k, lookup_key (Logger.defaultContext lg) k = None →
          lookup_key context k = None →
          ∀ e, observed e (emitted w (Logger.log lg w level message context err).2) →
               lookup_key (LogEntry.context e) k = None).
Proof.
  intros Hg c.
  assert (Logger.shouldLog c level = true) as Hgc
    by (unfold c; by rewrite child_shouldLog).
  split; [done|].
  split; [eexists; by apply log_formats|]. split.
  - intros e Hobs.
    destruct (log_observed_context c w level message context err e Hgc Hobs)
      as [_ Hlook].
    assert (∀ k, lookup_key (LogEntry.context e) k =
                 match lookup_key context k with
                 | Some v => Some v
                 | None =>
                     match extra !! k with
                     | Some v => Some v
                     | None => lookup_key (Logger.defaultContext lg) k
                     end
                 end) as Hall.
    { intros k. rewrite Hlook. unfold c. by rewrite child_defaultContext. }
    split; [done|]. split; [|split].
    + intros k v Hk Hctx. by rewrite Hall, Hctx, Hk.
    + intros k v Hctx. by rewrite Hall, Hctx.
    + intros k v Hk Hextra Hctx. by rewrite Hall, Hctx, Hextra.
  - intros k Hparent Hctx e Hobs.
    destruct (log_observed_context lg w level message context err e Hg Hobs)
      as [_ Hlook].
    by rewrite Hlook, Hctx.
Qed.

Lemma child_context_witness :
  lookup_key
    (LogEntry.context
       (Logger.log_entry
          (@Logger.child Fixture.host Fixture.logger {["userId" := JsStr "123"]})
          0 error "Failed to save" None (Some Fixture.boom))) "userId"
  = Some (JsStr "123")
  ∧ lookup_key
      (LogEntry.context
         (Logger.log_entry
            (@Logger.child Fixture.host Fixture.logger {["userId" := JsStr "123"]})
            0 error "Failed to save" (Some {["userId" := JsStr "456"]}) None))
      "userId"
    = Some (JsStr "456").
Proof.
  assert (Logger.shouldLog Fixture.logger error = true) as Hgate by reflexivity.
  split.
  - destruct (@child_context Fixture.host Fixture.logger {["userId" := JsStr "123"]}
                (Fixture.world [3]) error "Failed to save" None (Some Fixture.boom)
                Hgate) as (_ & _ & Hall & _).
    refine (proj1 (proj2 (Hall _ _)) "userId" (JsStr "123") _ _);
      [|reflexivity|reflexivity].
    left. apply (log_formats _ (Fixture.world [3])). reflexivity.
  - destruct (@child_context Fixture.host Fixture.logger {["userId" := JsStr "123"]}
                (Fixture.world [3]) error "Failed to save"
                (Some {["userId" := JsStr "456"]}) None Hgate)
      as (_ & _ & Hall & _).
    refine (proj1 (proj2 (proj2 (Hall _ _))) "userId" (JsStr "456") _);
      [|reflexivity].
    left. apply (log_formats _ (Fixture.world [3])). reflexivity.
Defined.

(** C7 as stated fails: a call-site context that binds the key again wins
    over the child's [extra]. *)
Lemma child_context_overridden :
  ¬ (∀ (lg : Logger.t) (extra : JsObject) (w : World) level message context err
       (k : string) (v : JsValue),
       extra !! k = Some v →
       Logger.shouldLog (@Logger.child Fixture.host lg extra) level = true →
       ∀ e, observed e (emitted w (Logger.log (@Logger.child Fixture.host lg extra)
                                     w level message context err).2) →
            lookup_key (LogEntry.context e) k = Some v).
Proof.
  intros Hclaim.
  assert (lookup_key
            (LogEntry.context
               (Logger.log_entry
                  (@Logger.child Fixture.host Fixture.logger {["userId" := JsStr "123"]})
                  0 error "Failed to save" (Some {["userId" := JsStr "456"]}) None))
            "userId" = Some (JsStr "123")) as Hbad.
  { apply (Hclaim Fixture.logger {["userId" := JsStr "123"]} (Fixture.world [3])
             error "Failed to save" (Some {["userId" := JsStr "456"]}) None
             "userId" (JsStr "123")); [reflexivity|reflexivity|].
    left. apply (log_formats _ (Fixture.world [3])). reflexivity. }
  vm_compute in Hbad. discriminate Hbad.
Qed.

(** * The default formatter *)

Lemma string_app_cancel (p a b : string) : p +:+ a = p +:+ b → a = b.
Proof. induction p as [|c p IH]; simpl; [done|]. intros [= Heq]. by apply IH. Qed.

Lemma string_app_length (a b : string) :
  String.length (a +:+ b) = String.length a + String.length b.
Proof. induction a as [|c a IH]; simpl; [done|]. by rewrite IH. Qed.

Lemma string_app_grows (c : ascii) (a b : string) : String c a +:+ b ≠ b.
Proof.
  intros Heq. apply (f_equal String.length) in Heq.
  rewrite string_app_length in Heq. simpl in Heq. lia.
Qed.

Lemma toUpperCase_level level :
  toUpperCase (LogLevel_str level) =
    match level with
    | debug => "DEBUG"
    | info => "INFO"
    | warn => "WARN"
    | error => "ERROR"
    | fatal => "FATAL"
    end.
Proof. by destruct level. Qed.

(** C9, as the code has it: the default formatter prints the ISO timestamp
    in brackets, the level in upper case, a colon and the message; then a
    space and the JSON rendering of the context whenever the context is
    present, the empty object included; then a space and the error's stack
    text whenever an error is present.  It agrees with the formatter of the
    specification on every entry except those whose context is the empty
    object. *)
Theorem defaultFormatter_shape `{Host} entry :
  Logger.defaultFormatter entry =
    "[" +:+ toISOString (LogEntry.timestamp entry) +:+ "] "
      +:+ match LogEntry.level entry with
          | debug => "DEBUG"
          | info => "INFO"
          | warn => "WARN"
          | error => "ERROR"
          | fatal => "FATAL"
          end
      +:+ ": " +:+ LogEntry.message entry
      +:+ match LogEntry.context entry with
          | Some c => " " +:+ JSON_stringify c
          | None => ""
          end
      +:+ match LogEntry.error entry with
          | Some e => " " +:+ template_str (err_stack e)
          | None => ""
          end
  ∧ (Logger.defaultFormatter entry = defaultFormatter_as_specified entry
     ↔ LogEntry.context entry ≠ Some ∅).
Proof.
  split.
  { unfold Logger.defaultFormatter. by rewrite toUpperCase_level. }
  unfold Logger.defaultFormatter, defaultFormatter_as_specified. split.
  - intros Heq Hctx. rewrite Hctx in Heq.
    do 6 apply string_app_cancel in Heq.
    rewrite decide_True in Heq by done.
    by apply string_app_grows in Heq.
  - intros Hctx. destruct (LogEntry.context entry) as [c|]; [|done].
    rewrite decide_False; [done|]. by intros ->.
Qed.

(** C9 as stated fails: an entry whose context is the empty object is
    printed with the rendering of that object after the message. *)
Lemma defaultFormatter_empty_context :
  @Logger.defaultFormatter Fixture.host
    (LogEntry.mk warn "disk almost full" 0 (Some ∅) None (Some []) (Some "application"))
  = "[1970-01-01T00:00:00.000Z] WARN: disk almost full {}"
  ∧ @defaultFormatter_as_specified Fixture.host
      (LogEntry.mk warn "disk almost full" 0 (Some ∅) None (Some []) (Some "application"))
    = "[1970-01-01T00:00:00.000Z] WARN: disk almost full"
  ∧ @Logger.defaultFormatter Fixture.host
      (LogEntry.mk warn "disk almost full" 0 (Some ∅) None (Some []) (Some "application"))
    ≠ @defaultFormatter_as_specified Fixture.host
        (LogEntry.mk warn "disk almost full" 0 (Some ∅) None (Some []) (Some "application")).
Proof. split; [by vm_compute|]. split; [by vm_compute|]. by vm_compute. Qed.

(** * The transport registry *)

Lemma filter_absent (ts : list nat) (transport : nat) :
  transport ∉ ts → filter (λ t, t ≠ transport) ts = ts.
Proof.
  induction ts as [|t ts IH]; [done|].
  intros [Hne Hnotin]%not_elem_of_cons.
  rewrite filter_cons_True by done. f_equal. by apply IH.
Qed.

(** C8: [removeTransport] leaves the logger with exactly the transports
    whose identity differs from the given one, so a transport of the same
    behaviour but another identity stays; for a transport that is not
    registered the list, and its length, are what they were, the call
    returns, and nothing is written to the trace. *)
Theorem removeTransport_by_identity lg w transport :
  let r := Logger.removeTransport lg w transport in
  Logger.transports_of r.1 r.2
    = filter (λ t, t ≠ transport) (Logger.transports_of lg w)
  ∧ (∀ t, t ∈ Logger.transports_of r.1 r.2 ↔
          t ∈ Logger.transports_of lg w ∧ t ≠ transport)
  ∧ (∀ t, t ∈ Logger.transports_of lg w → t ≠ transport →
          objects w t = objects w transport →
          t ∈ Logger.transports_of r.1 r.2)
  ∧ (transport ∉ Logger.transports_of lg w →
     Logger.transports_of r.1 r.2 = Logger.transports_of lg w
     ∧ length (Logger.transports_of r.1 r.2) = length (Logger.transports_of lg w))
  ∧ trace r.2 = trace w.
Proof.
  intros r.
  assert (Logger.transports_of r.1 r.2
          = filter (λ t, t ≠ transport) (Logger.transports_of lg w)) as Hr.
  { unfold r, Logger.removeTransport, Logger.transports_of; simpl.
    apply read_array_new. }
  split; [done|]. rewrite Hr. split; [|split; [|split]].
  - intros t. rewrite list_elem_of_filter. tauto.
  - intros t Ht Hne _. apply list_elem_of_filter. done.
  - intros Hnotin.
    by rewrite filter_absent.
  - done.
Qed.

Lemma removeTransport_by_identity_witness :
  Logger.transports_of (Logger.removeTransport Fixture.logger (Fixture.world [1; 3]) 7).1
    (Logger.removeTransport Fixture.logger (Fixture.world [1; 3]) 7).2
  = [1; 3].
Proof.
  destruct (removeTransport_by_identity Fixture.logger (Fixture.world [1; 3]) 7)
    as (_ & _ & _ & Hnoop & _).
  apply Hnoop.
  intros Hin. repeat (apply elem_of_cons in Hin as [Hin|Hin]; [discriminate Hin|]).
  by apply elem_of_nil in Hin.
Defined.

(** ** Parent and child share one transport array *)

Lemma child_shares_array `{Host} lg extra :
  Logger.transports (Logger.child lg extra) = Logger.transports lg.
Proof. reflexivity. Qed.

(** Right after derivation both loggers hold the same transport
    identities. *)
Lemma child_same_transports `{Host} lg extra w :
  Logger.transports_of (Logger.child lg extra) w = Logger.transports_of lg w.
Proof. unfold Logger.transports_of. by rewrite child_shares_array. Qed.

(** [addTransport] on the parent pushes into the array the child reads. *)
Lemma addTransport_reaches_child `{Host} lg extra w transport :
  Logger.transports lg < length (arrays w) →
  Logger.transports_of (Logger.child lg extra) (Logger.addTransport lg w transport)
  = Logger.transports_of (Logger.child lg extra) w ++ [transport].
Proof. intros Hwf. by apply read_array_push. Qed.

(** [addTransport] on the child pushes into the array the parent reads. *)
Lemma addTransport_reaches_parent `{Host} lg extra w transport :
  Logger.transports lg < length (arrays w) →
  Logger.transports_of lg (Logger.addTransport (Logger.child lg extra) w transport)
  = Logger.transports_of lg w ++ [transport].
Proof. intros Hwf. by apply read_array_push. Qed.



(** C6 fails on [addTransport]: a child derived from a logger with the one
    transport 3 holds [3]; after the parent adds transport 4 the child
    holds [3; 4], and after the child adds transport 4 the parent holds
    [3; 4]: the two loggers read one and the same array. *)
Theorem child_transport_array_shared :
  let parent := Fixture.logger in
  let w := Fixture.world [3] in
  let child := @Logger.child Fixture.host parent {["userId" := JsStr "123"]} in
  Logger.transports_of child w = [3]
  ∧ Logger.transports_of child (Logger.addTransport parent w 4) = [3; 4]
  ∧ Logger.transports_of parent (Logger.addTransport child w 4) = [3; 4].
Proof. by vm_compute. Qed.

(** * Fan-out and transport failures *)

Lemma write_promises_not_rejected w fe (ts : list nat) e :
  Promise_all (map (Logger.write_promise w fe) ts) ≠ Rejected e.
Proof.
  induction ts as [|t ts IH]; simpl; [done|].
  unfold Logger.write_promise at 1.
  destruct (write (objects w t) fe) as [e'|[|e'|]];
    by destruct (Promise_all _).
Qed.

Lemma write_promises_fulfilled w fe (ts : list nat) :
  (∀ t, t ∈ ts → write (objects w t) fe ≠ Returns Pending) →
  Promise_all (map (Logger.write_promise w fe) ts) = Fulfilled.
Proof.
  induction ts as [|t ts IH]; simpl; [done|]. intros Hsettle.
  rewrite IH by (intros t' Ht'; apply Hsettle, elem_of_cons; by right).
  unfold Logger.write_promise.
  destruct (write (objects w t) fe) as [e'|[|e'|]] eqn:Hw; try done.
  exfalso. apply (Hsettle t); [apply elem_of_cons; by left|done].
Qed.

Lemma writeToTransports_result lg w entry :
  let fe := LogEntry.with_message entry (Logger.formatter lg entry) in
  (Logger.writeToTransports lg w entry).1 =
    if (Logger.every (Logger.filters lg) 0 fe).1
    then Promise_all (map (Logger.write_promise w fe) (Logger.transports_of lg w))
    else Fulfilled.
Proof.
  intros fe. unfold Logger.writeToTransports. fold fe.
  by destruct (Logger.every (Logger.filters lg) 0 fe) as [[] evs].
Qed.

(** X1 (Logger.writeToTransports, Logger.log).
    The isolation [Logger] of src/index.ts gives: when the entry passes the
    gate and the filters, every registered transport is written the
    formatted entry, each write that throws or whose promise is rejected is
    reported on [console.error], the promise of [log] is never rejected,
    and it is fulfilled once no write stays pending. *)
Theorem write_failures_isolated lg w level message context err :
  Logger.shouldLog lg level = true →
  let entry := Logger.log_entry lg (clock w) level message context err in
  let fe := LogEntry.with_message entry (Logger.formatter lg entry) in
  let r := Logger.log lg w level message context err in
  (∀ f, f ∈ Logger.filters lg → f fe = true) →
  (∀ t, t ∈ Logger.transports_of lg w → EvWrite t fe ∈ emitted w r.2)
  ∧ (∀ t e, t ∈ Logger.transports_of lg w →
            write (objects w t) fe = Throws e
            ∨ write (objects w t) fe = Returns (Rejected e) →
            Logger.transport_error e ∈ emitted w r.2)
  ∧ (∀ e, r.1 ≠ Rejected e)
  ∧ ((∀ t, t ∈ Logger.transports_of lg w →
           write (objects w t) fe ≠ Returns Pending) →
     r.1 = Fulfilled).
Proof.
  intros Hg entry fe r Hall.
  assert (Hall' := proj2 (forallb_filters _ _) Hall).
  assert (emitted w r.2
          = EvNow :: EvFormat entry :: (Logger.every (Logger.filters lg) 0 fe).2
              ++ (Logger.transports_of lg w ≫= Logger.start_write w fe)
              ++ (Logger.transports_of lg w ≫= Logger.settle_write w fe)) as Hevs.
  { unfold r. rewrite log_emitted, writeToTransports_emitted by done.
    fold entry fe. by rewrite every_fst, Hall'. }
  assert (r.1 = Promise_all (map (Logger.write_promise w fe)
                               (Logger.transports_of lg w))) as Hres.
  { unfold r, Logger.log. rewrite Hg; simpl.
    rewrite writeToTransports_result. fold entry fe. by rewrite every_fst, Hall'. }
  rewrite Hevs, Hres. repeat split.
  - intros t Ht. do 2 (apply elem_of_cons; right).
    apply elem_of_app; right. apply elem_of_app; left.
    apply start_write_events. exists t. split; [done|by left].
  - intros t e Ht [Hw|Hw]; do 2 (apply elem_of_cons; right);
      apply elem_of_app; right; apply elem_of_app.
    + left. apply start_write_events. exists t. split; [done|]. right. by exists e.
    + right. apply settle_write_events. by exists t, e.
  - intros e. apply write_promises_not_rejected.
  - apply write_promises_fulfilled.
Qed.

Lemma write_failures_isolated_witness :
  (Logger.log Fixture.logger (Fixture.world [1; 2; 3]) error "Failed to save"
     None None).1 = Fulfilled.
Proof.
  assert (Logger.shouldLog Fixture.logger error = true) as Hgate by reflexivity.
  destruct (write_failures_isolated Fixture.logger (Fixture.world [1; 2; 3]) error
              "Failed to save" None None Hgate) as (_ & _ & _ & Hdone).
  - intros f Hf. apply list_elem_of_singleton in Hf as ->. reflexivity.
  - apply Hdone. intros t _. simpl.
    destruct t as [|[|[|t]]]; discriminate.
Defined.

(** C1 fails in the second variant of the class: with transport 1 throwing
    from [write] and transport 3 behind it in the list, the promise of
    [log] is rejected with the thrown error, [write] is called on transport
    1 only, and nothing about the failure is printed. *)
Theorem simple_log_throw_escapes :
  let lg := SimpleLogger.new Fixture.config in
  let w := Fixture.world [1; 3] in
  let r := SimpleLogger.log lg w error "Failed to save" None in
  r.1 = Rejected Fixture.boom
  ∧ emitted w r.2 =
      [EvConsole console_error "Failed to save"; EvNow;
       EvWrite 1 (LogEntry.mk error "Failed to save" 0 None None None None)]
  ∧ (∀ e, EvWrite 3 e ∉ emitted w r.2)
  ∧ Logger.transport_error Fixture.boom ∉ emitted w r.2.
Proof.
  intros lg w r.
  assert (emitted w r.2 =
            [EvConsole console_error "Failed to save"; EvNow;
             EvWrite 1 (LogEntry.mk error "Failed to save" 0 None None None None)])
    as Hevs by (by vm_compute).
  split; [by vm_compute|]. split; [done|]. rewrite Hevs. split.
  - intros e Hin.
    repeat (apply elem_of_cons in Hin as [Hin|Hin]; [discriminate Hin|]).
    by apply elem_of_nil in Hin.
  - intros Hin.
    repeat (apply elem_of_cons in Hin as [Hin|Hin]; [discriminate Hin|]).
    by apply elem_of_nil in Hin.
Qed.

(** * Beyond the membership facts: order and number of calls *)

Lemma writes_of_app evs1 evs2 :
  writes_of (evs1 ++ evs2) = writes_of evs1 ++ writes_of evs2.
Proof. apply omap_app. Qed.

Lemma filter_calls_of_app evs1 evs2 :
  filter_calls_of (evs1 ++ evs2) = filter_calls_of evs1 ++ filter_calls_of evs2.
Proof. apply omap_app. Qed.

Lemma writes_of_every fs i entry : writes_of (Logger.every fs i entry).2 = [].
Proof.
  revert i. induction fs as [|f fs IH]; intros i; simpl; [done|].
  destruct (f entry); simpl; [apply IH | done].
Qed.

Lemma writes_of_start w fe (ts : list nat) :
  writes_of (ts ≫= Logger.start_write w fe) = map (λ t, (t, fe)) ts.
Proof.
  induction ts as [|t ts IH]; [done|].
  rewrite bind_cons, writes_of_app, IH. unfold Logger.start_write.
  by destruct (write (objects w t) fe).
Qed.

Lemma writes_of_settle w fe (ts : list nat) :
  writes_of (ts ≫= Logger.settle_write w fe) = [].
Proof.
  induction ts as [|t ts IH]; [done|].
  rewrite bind_cons, writes_of_app, IH. unfold Logger.settle_write.
  by destruct (write (objects w t) fe) as [e|[|e|]].
Qed.

Lemma filter_calls_of_start w fe (ts : list nat) :
  filter_calls_of (ts ≫= Logger.start_write w fe) = [].
Proof.
  induction ts as [|t ts IH]; [done|].
  rewrite bind_cons, filter_calls_of_app, IH. unfold Logger.start_write.
  by destruct (write (objects w t) fe).
Qed.

Lemma filter_calls_of_settle w fe (ts : list nat) :
  filter_calls_of (ts ≫= Logger.settle_write w fe) = [].
Proof.
  induction ts as [|t ts IH]; [done|].
  rewrite bind_cons, filter_calls_of_app, IH. unfold Logger.settle_write.
  by destruct (write (objects w t) fe) as [e|[|e|]].
Qed.

Lemma every_calls_all fs i entry :
  (∀ f, f ∈ fs → f entry = true) →
  filter_calls_of (Logger.every fs i entry).2
  = map (λ j, (j, entry)) (seq i (length fs)).
Proof.
  revert i. induction fs as [|f fs IH]; intros i Hall; simpl; [done|].
  rewrite (Hall f) by (apply elem_of_cons; by left). simpl. f_equal.
  apply IH. intros g Hg. apply Hall, elem_of_cons. by right.
Qed.

Lemma every_calls_until pre f post i entry :
  (∀ g, g ∈ pre → g entry = true) → f entry = false →
  filter_calls_of (Logger.every (pre ++ f :: post) i entry).2
  = map (λ j, (j, entry)) (seq i (S (length pre))).
Proof.
  revert i. induction pre as [|g pre IH]; intros i Hpre Hf; simpl.
  - by rewrite Hf.
  - rewrite (Hpre g) by (apply elem_of_cons; by left). simpl. f_equal.
    apply IH; [|done]. intros g' Hg'. apply Hpre, elem_of_cons. by right.
Qed.

Lemma log_writes lg w level message context err :
  Logger.shouldLog lg level = true →
  let entry := Logger.log_entry lg (clock w) level message context err in
  let fe := LogEntry.with_message entry (Logger.formatter lg entry) in
  writes_of (emitted w (Logger.log lg w level message context err).2)
  = if forallb (λ f, f fe) (Logger.filters lg)
    then map (λ t, (t, fe)) (Logger.transports_of lg w)
    else [].
Proof.
  intros Hg entry fe.
  rewrite log_emitted, writeToTransports_emitted by done. fold entry fe.
  rewrite every_fst.
  change (EvNow :: EvFormat entry :: ?l) with ([EvNow; EvFormat entry] ++ l).
  rewrite !writes_of_app, writes_of_every. simpl.
  destruct (forallb _ _); [|done].
  by rewrite writes_of_app, writes_of_start, writes_of_settle, app_nil_r.
Qed.

Lemma log_filter_calls lg w level message context err :
  Logger.shouldLog lg level = true →
  let entry := Logger.log_entry lg (clock w) level message context err in
  let fe := LogEntry.with_message entry (Logger.formatter lg entry) in
  filter_calls_of (emitted w (Logger.log lg w level message context err).2)
  = filter_calls_of (Logger.every (Logger.filters lg) 0 fe).2.
Proof.
  intros Hg entry fe.
  rewrite log_emitted, writeToTransports_emitted by done. fold entry fe.
  change (EvNow :: EvFormat entry :: ?l) with ([EvNow; EvFormat entry] ++ l).
  rewrite !filter_calls_of_app. simpl.
  destruct (Logger.every _ _ _).1; [|by rewrite app_nil_r].
  by rewrite filter_calls_of_app, filter_calls_of_start, filter_calls_of_settle,
    !app_nil_r.
Qed.

Lemma log_result lg w level message context err :
  Logger.shouldLog lg level = true →
  let entry := Logger.log_entry lg (clock w) level message context err in
  let fe := LogEntry.with_message entry (Logger.formatter lg entry) in
  (Logger.log lg w level message context err).1
  = if forallb (λ f, f fe) (Logger.filters lg)
    then Promise_all (map (Logger.write_promise w fe) (Logger.transports_of lg w))
    else Fulfilled.
Proof.
  intros Hg entry fe. unfold Logger.log. rewrite Hg; simpl.
  rewrite writeToTransports_result. fold entry fe. by rewrite every_fst.
Qed.

(** X2 (Logger.log, Logger.writeToTransports): when the level passes the
    gate and every filter answers true, the [write] calls of the dispatch
    are exactly one per entry of the transport list, in list order and all
    with the formatted entry (a transport registered twice is written
    twice), and every filter is called exactly once, in list order. *)
Theorem log_writes_once_in_order lg w level message context err :
  Logger.shouldLog lg level = true →
  let entry := Logger.log_entry lg (clock w) level message context err in
  let fe := LogEntry.with_message entry (Logger.formatter lg entry) in
  let evs := emitted w (Logger.log lg w level message context err).2 in
  (∀ f, f ∈ Logger.filters lg → f fe = true) →
  writes_of evs = map (λ t, (t, fe)) (Logger.transports_of lg w)
  ∧ filter_calls_of evs
    = map (λ i, (i, fe)) (seq 0 (length (Logger.filters lg))).
Proof.
  intros Hg entry fe evs Hall. split.
  - unfold evs. rewrite log_writes by done. fold entry fe.
    by rewrite (proj2 (forallb_filters _ _) Hall).
  - unfold evs. rewrite log_filter_calls by done. fold entry fe.
    by apply every_calls_all.
Qed.

Lemma log_writes_once_in_order_witness :
  writes_of (emitted (Fixture.world [3; 1; 3])
               (Logger.log Fixture.logger (Fixture.world [3; 1; 3]) error
                  "Failed to save" None None).2)
  = map (λ t, (t, LogEntry.with_message
                    (Logger.log_entry Fixture.logger 0 error "Failed to save" None None)
                    (Logger.formatter Fixture.logger
                       (Logger.log_entry Fixture.logger 0 error "Failed to save"
                          None None))))
      [3; 1; 3].
Proof.
  assert (Logger.shouldLog Fixture.logger error = true) as Hgate by reflexivity.
  refine (proj1 (log_writes_once_in_order Fixture.logger (Fixture.world [3; 1; 3])
                   error "Failed to save" None None Hgate _)).
  intros f Hf. apply list_elem_of_singleton in Hf as ->. reflexivity.
Defined.

(** X3 (Logger.writeToTransports): the filters are evaluated in list order
    and evaluation stops at the first one that answers false: the filters
    before it and that filter are called once each, no later filter is
    called, no transport is written to, and the promise of [log] is
    fulfilled. *)
Theorem filters_short_circuit lg w level message context err pre f post :
  Logger.shouldLog lg level = true →
  let entry := Logger.log_entry lg (clock w) level message context err in
  let fe := LogEntry.with_message entry (Logger.formatter lg entry) in
  let r := Logger.log lg w level message context err in
  Logger.filters lg = pre ++ f :: post →
  (∀ g, g ∈ pre → g fe = true) →
  f fe = false →
  filter_calls_of (emitted w r.2) = map (λ i, (i, fe)) (seq 0 (S (length pre)))
  ∧ writes_of (emitted w r.2) = []
  ∧ r.1 = Fulfilled.
Proof.
  intros Hg entry fe r Hfs Hpre Hf.
  assert (forallb (λ g, g fe) (Logger.filters lg) = false) as Hfail.
  { apply not_true_is_false. rewrite forallb_filters. intros Hall.
    rewrite (Hall f) in Hf; [done|]. rewrite Hfs.
    apply elem_of_app; right. apply elem_of_cons; by left. }
  split; [|split].
  - unfold r. rewrite log_filter_calls by done. fold entry fe. rewrite Hfs.
    by apply every_calls_until.
  - unfold r. rewrite log_writes by done. fold entry fe. by rewrite Hfail.
  - unfold r. rewrite log_result by done. fold entry fe. by rewrite Hfail.
Qed.

Lemma filters_short_circuit_witness :
  let w := Fixture.world [3] in
  let entry := Logger.log_entry Fixture.guarded_logger 0 info "the secret token"
                 None None in
  let fe := LogEntry.with_message entry
              (Logger.formatter Fixture.guarded_logger entry) in
  let r := Logger.log Fixture.guarded_logger w info "the secret token" None None in
  filter_calls_of (emitted w r.2) = [(0, fe); (1, fe)]
  ∧ writes_of (emitted w r.2) = []
  ∧ r.1 = Fulfilled.
Proof.
  intros w entry fe r.
  assert (Logger.shouldLog Fixture.guarded_logger info = true) as Hgate
    by reflexivity.
  assert (Logger.filters Fixture.guarded_logger
          = [Fixture.no_password] ++ Fixture.no_secret :: [Fixture.no_token])
    as Hfs by reflexivity.
  assert (∀ g, g ∈ [Fixture.no_password] → g fe = true) as Hpre.
  { intros g Hg. apply list_elem_of_singleton in Hg as ->. reflexivity. }
  assert (Fixture.no_secret fe = false) as Hf by reflexivity.
  exact (filters_short_circuit Fixture.guarded_logger w info "the secret token"
           None None [Fixture.no_password] Fixture.no_secret [Fixture.no_token]
           Hgate Hfs Hpre Hf).
Defined.

(** * The gate and the level methods *)

(** X4 (Logger.shouldLog): the gate is upward closed: when a level passes,
    every level of at least that priority passes too. *)
Theorem gate_upward_closed lg l1 l2 :
  (LOG_LEVEL_PRIORITY l1 <= LOG_LEVEL_PRIORITY l2)%Z →
  Logger.shouldLog lg l1 = true →
  Logger.shouldLog lg l2 = true.
Proof.
  unfold Logger.shouldLog. rewrite !Z.geb_leb, !Z.leb_le. lia.
Qed.

Lemma gate_upward_closed_witness :
  Logger.shouldLog Fixture.logger error = true.
Proof.
  apply (gate_upward_closed Fixture.logger info error); [|reflexivity].
  intros Hcmp. discriminate Hcmp.
Defined.

Lemma shouldLog_fatal lg : Logger.shouldLog lg fatal = true.
Proof.
  unfold Logger.shouldLog. rewrite Z.geb_leb, Z.leb_le.
  destruct (Logger.minLevel lg); simpl; lia.
Qed.

Lemma log_observed_fields lg w level message context err e :
  Logger.shouldLog lg level = true →
  observed e (emitted w (Logger.log lg w level message context err).2) →
  LogEntry.level e = level ∧ LogEntry.error e = err
  ∧ LogEntry.timestamp e = clock w.
Proof.
  intros Hg Hobs.
  by destruct (log_observed _ _ _ _ _ _ _ Hg Hobs) as [->| ->].
Qed.

Lemma observed_nil e : ¬ observed e [].
Proof.
  intros [Hf|[[i Hf]|[t Hw]]]; by eapply elem_of_nil.
Qed.

Lemma log_observed_fields' lg w level message context err e :
  observed e (emitted w (Logger.log lg w level message context err).2) →
  LogEntry.level e = level ∧ LogEntry.error e = err
  ∧ LogEntry.timestamp e = clock w.
Proof.
  destruct (Logger.shouldLog lg level) eqn:Hg.
  - by apply log_observed_fields.
  - rewrite log_gated by done. unfold emitted; simpl. rewrite drop_all.
    by intros ?%observed_nil.
Qed.

(** X5 (Logger.debug, info, warn, error, fatal): every entry a level
    method shows to the formatter, a filter or a transport has the level of
    the method and the clock's time; [debug], [info] and [warn] never carry
    an error, [error] and [fatal] carry the error they were given; and a
    [fatal] call is never dropped by the gate, whatever [minLevel] is. *)
Theorem level_methods_entries lg w message err context :
  (∀ e, observed e (emitted w (Logger.debug lg w message context).2) →
        LogEntry.level e = debug ∧ LogEntry.error e = None
        ∧ LogEntry.timestamp e = clock w)
  ∧ (∀ e, observed e (emitted w (Logger.info lg w message context).2) →
          LogEntry.level e = info ∧ LogEntry.error e = None
          ∧ LogEntry.timestamp e = clock w)
  ∧ (∀ e, observed e (emitted w (Logger.warn lg w message context).2) →
          LogEntry.level e = warn ∧ LogEntry.error e = None
          ∧ LogEntry.timestamp e = clock w)
  ∧ (∀ e, observed e (emitted w (Logger.error lg w message err context).2) →
          LogEntry.level e = error ∧ LogEntry.error e = err
          ∧ LogEntry.timestamp e = clock w)
  ∧ (∀ e, observed e (emitted w (Logger.fatal lg w message err context).2) →
          LogEntry.level e = fatal ∧ LogEntry.error e = err
          ∧ LogEntry.timestamp e = clock w)
  ∧ EvFormat (Logger.log_entry lg (clock w) fatal message context err)
      ∈ emitted w (Logger.fatal lg w message err context).2.
Proof.
  split; [intros e Hobs; by apply log_observed_fields' in Hobs|].
  split; [intros e Hobs; by apply log_observed_fields' in Hobs|].
  split; [intros e Hobs; by apply log_observed_fields' in Hobs|].
  split; [intros e Hobs; by apply log_observed_fields' in Hobs|].
  split; [intros e Hobs; by apply log_observed_fields' in Hobs|].
  apply log_formats, shouldLog_fatal.
Qed.

(** * What the default formatter keeps of the entry *)

Lemma prefix_app (n a b : string) :
  String.prefix n a = true → String.prefix n (a +:+ b) = true.
Proof.
  revert n. induction a as [|c a IH]; intros n; simpl.
  - destruct n; [|done]. by destruct b.
  - destruct n as [|c' n]; [done|]. destruct (ascii_dec c' c); [apply IH|done].
Qed.

Lemma includes_app_l (n a b : string) :
  includes n a = true → includes n (a +:+ b) = true.
Proof.
  induction a as [|c a IH]; simpl.
  - rewrite orb_false_r. intros Hp. destruct n; [|done]. destruct b; by simpl.
  - intros [Hp|Hi]%orb_true_iff; apply orb_true_iff.
    + left. by apply (prefix_app n (String c a) b).
    + right. by apply IH.
Qed.

Lemma includes_app_r (n a b : string) :
  includes n b = true → includes n (a +:+ b) = true.
Proof.
  intros Hb. induction a as [|c a IH]; simpl; [done|].
  apply orb_true_iff. by right.
Qed.

Lemma string_app_assoc (a b c : string) : (a +:+ b) +:+ c = a +:+ b +:+ c.
Proof. induction a as [|x a IH]; [done|]. exact (f_equal (String x) IH). Qed.

Lemma defaultFormatter_split `{Host} entry :
  ∃ head ctx tail,
    Logger.defaultFormatter entry
    = head +:+ LogEntry.message entry +:+ ctx +:+ tail
    ∧ ctx = match LogEntry.context entry with
            | Some c => " " +:+ JSON_stringify c
            | None => ""
            end
    ∧ tail = match LogEntry.error entry with
             | Some e => " " +:+ template_str (err_stack e)
             | None => ""
             end.
Proof.
  exists ("[" +:+ toISOString (LogEntry.timestamp entry) +:+ "] "
            +:+ toUpperCase (LogLevel_str (LogEntry.level entry)) +:+ ": ").
  do 2 eexists. split; [|done].
  unfold Logger.defaultFormatter. cbv zeta.
  by rewrite !string_app_assoc.
Qed.

(** X6 (Logger.defaultFormatter): text is never lost by the default
    formatter: whatever occurs in the raw message, in the JSON rendering of
    the context or in the error's stack also occurs in the formatted
    message, so a filter that searches the formatted message for a
    substring sees all three. *)
Theorem defaultFormatter_keeps_text `{Host} needle entry :
  includes needle (LogEntry.message entry) = true
  ∨ (∃ c, LogEntry.context entry = Some c
          ∧ includes needle (JSON_stringify c) = true)
  ∨ (∃ e s, LogEntry.error entry = Some e ∧ err_stack e = Some s
            ∧ includes needle s = true) →
  includes needle (Logger.defaultFormatter entry) = true.
Proof.
  destruct (defaultFormatter_split entry) as (head & ctx & tail & -> & Hctx & Htail).
  intros [Hm|[(c & Hc & Hin)|(e & s & He & Hs & Hin)]].
  - by apply includes_app_r, includes_app_l.
  - apply includes_app_r, includes_app_r, includes_app_l.
    rewrite Hctx, Hc. by apply includes_app_r.
  - do 3 apply includes_app_r.
    rewrite Htail, He, Hs. by apply includes_app_r.
Qed.

Lemma defaultFormatter_keeps_text_witness :
  includes "password"
    (@Logger.defaultFormatter Fixture.host
       (Logger.log_entry Fixture.logger 0 info "ok"
          (Some {["password" := JsStr "hunter2"]}) None)) = true.
Proof.
  apply (@defaultFormatter_keeps_text Fixture.host).
  right; left. eexists. split; reflexivity.
Defined.

(** X7 (Logger.log with the default formatter): a logger built without a
    formatter and with the filter [entry => !entry.message.includes(s)]
    never writes an entry whose raw message contains [s] to any transport. *)
Theorem substring_filter_blocks `{Host} cfg needle w level message context err :
  LoggerConfig.formatter cfg = None →
  (λ e, negb (includes needle (LogEntry.message e)))
    ∈ default [] (LoggerConfig.filters cfg) →
  includes needle message = true →
  writes_of (emitted w (Logger.log (Logger.new cfg) w level message context err).2)
  = [].
Proof.
  intros Hfmt Hfilter Hin.
  destruct (Logger.shouldLog (Logger.new cfg) level) eqn:Hg.
  - rewrite log_writes by done.
    set (entry := Logger.log_entry _ _ _ _ _ _).
    set (fe := LogEntry.with_message _ _).
    destruct (forallb _ _) eqn:Hall; [|done].
    rewrite forallb_filters in Hall. apply Hall in Hfilter.
    apply negb_true_iff in Hfilter.
    assert (includes needle (LogEntry.message fe) = true) as Hfe; [|congruence].
    change (LogEntry.message fe) with (Logger.formatter (Logger.new cfg) entry).
    assert (Logger.formatter (Logger.new cfg) = Logger.defaultFormatter) as ->
      by (unfold Logger.new; simpl; by rewrite Hfmt).
    destruct (defaultFormatter_split entry) as (head & ctx & tail & -> & _).
    by apply includes_app_r, includes_app_l.
  - rewrite log_gated by done. unfold emitted; simpl. by rewrite drop_all.
Qed.

Lemma substring_filter_blocks_witness :
  writes_of (emitted (Fixture.world [3])
               (Logger.log (@Logger.new Fixture.host Fixture.config)
                  (Fixture.world [3]) error "wrong password" None None).2) = [].
Proof.
  apply (@substring_filter_blocks Fixture.host Fixture.config "password").
  - reflexivity.
  - apply elem_of_cons; by left.
  - reflexivity.
Defined.

(** * Shutdown *)

Lemma Promise_all_fulfilled ps :
  Promise_all ps = Fulfilled ↔ ∀ p, p ∈ ps → p = Fulfilled.
Proof.
  induction ps as [|p ps IH]; simpl.
  - split; [|done]. by intros _ p ?%elem_of_nil.
  - split.
    + intros Hall q [->|Hq]%elem_of_cons.
      * by destruct p, (Promise_all ps).
      * apply IH; [|done]. by destruct p, (Promise_all ps).
    + intros Hall. rewrite (Hall p) by (apply elem_of_cons; by left).
      rewrite (proj2 IH); [done|]. intros q Hq. apply Hall, elem_of_cons. by right.
Qed.

Lemma Promise_all_rejected ps e :
  Rejected e ∈ ps → ∃ e', Promise_all ps = Rejected e'.
Proof.
  induction ps as [|p ps IH]; simpl; [by intros ?%elem_of_nil|].
  intros [<-|Hin]%elem_of_cons; [by eexists|].
  destruct (IH Hin) as [e' ->]. destruct p; by eexists.
Qed.

Lemma with_shutdown_cons hooks t (ts : list nat) :
  Logger.with_shutdown hooks (t :: ts)
  = match hooks t with
    | Some o => (t, o) :: Logger.with_shutdown hooks ts
    | None => Logger.with_shutdown hooks ts
    end.
Proof. unfold Logger.with_shutdown; simpl. by destruct (hooks t). Qed.

Lemma map_shutdown_returns t p hs :
  Logger.map_shutdown ((t, Returns p) :: hs)
  = (match (Logger.map_shutdown hs).1 with
     | inl e => inl e
     | inr ps => inr (p :: ps)
     end, t :: (Logger.map_shutdown hs).2).
Proof. reflexivity. Qed.

Lemma map_shutdown_no_throw hooks (ts : list nat) :
  (∀ t e, t ∈ ts → hooks t ≠ Some (Throws e)) →
  ∃ ps, Logger.map_shutdown (Logger.with_shutdown hooks ts)
        = (inr ps, filter (λ t, is_Some (hooks t)) ts)
        ∧ ∀ p, p ∈ ps ↔ ∃ t, t ∈ ts ∧ hooks t = Some (Returns p).
Proof.
  induction ts as [|t ts IH]; intros Hsafe.
  - exists []. split; [done|]. intros p. split.
    + by intros ?%elem_of_nil.
    + by intros (t & ?%elem_of_nil & _).
  - destruct IH as (ps & Hmap & Hps).
    { intros t' e Ht'. apply Hsafe, elem_of_cons. by right. }
    rewrite with_shutdown_cons.
    destruct (hooks t) as [[e|p]|] eqn:Ht.
    + exfalso. by apply (Hsafe t e); [apply elem_of_cons; left|].
    + exists (p :: ps). rewrite map_shutdown_returns, Hmap; simpl.
      rewrite filter_cons_True by (by rewrite Ht). split; [done|].
      intros q. rewrite elem_of_cons, Hps. split.
      * intros [->|(t' & Ht' & Hq)].
        -- exists t. split; [apply elem_of_cons; by left|done].
        -- exists t'. split; [apply elem_of_cons; by right|done].
      * intros (t' & [->|Ht']%elem_of_cons & Hq).
        -- left. congruence.
        -- right. by exists t'.
    + exists ps. rewrite Hmap.
      rewrite filter_cons_False by (rewrite Ht; by intros [? ?]). split; [done|].
      intros q. rewrite Hps. split.
      * intros (t' & Ht' & Hq). exists t'. split; [apply elem_of_cons; by right|done].
      * intros (t' & [->|Ht']%elem_of_cons & Hq); [congruence|by exists t'].
Qed.

(** X8 (Logger.shutdown): when no hook throws, [shutdown] calls the hook of
    every registered transport that has one, once each and in list order,
    and skips the transports without a hook; its promise is fulfilled
    exactly when every hook's promise is fulfilled (in particular when no
    transport has a hook). *)
Theorem shutdown_calls_each_hook lg w hooks :
  (∀ t e, t ∈ Logger.transports_of lg w → hooks t ≠ Some (Throws e)) →
  let r := Logger.shutdown lg w hooks in
  r.2 = filter (λ t, is_Some (hooks t)) (Logger.transports_of lg w)
  ∧ (r.1 = Fulfilled ↔
     ∀ t, t ∈ Logger.transports_of lg w →
          hooks t = None ∨ hooks t = Some (Returns Fulfilled)).
Proof.
  intros Hsafe r.
  destruct (map_shutdown_no_throw hooks _ Hsafe) as (ps & Hmap & Hps).
  unfold r, Logger.shutdown. fold (Logger.transports_of lg w). rewrite Hmap; simpl.
  split; [done|]. rewrite Promise_all_fulfilled. split.
  - intros Hall t Ht. destruct (hooks t) as [[e|p]|] eqn:Hh; [|right|by left].
    + by destruct (Hsafe t e Ht).
    + f_equal. f_equal. apply Hall, Hps. by exists t.
  - intros Hall p (t & Ht & Hh)%Hps.
    destruct (Hall t Ht) as [Hn|Hf]; congruence.
Qed.

Lemma shutdown_calls_each_hook_witness :
  (Logger.shutdown Fixture.logger (Fixture.world [3; 4; 5])
     (λ t, if decide (t = 4) then None else Some (Returns Fulfilled))).2 = [3; 5].
Proof.
  refine (proj1 (shutdown_calls_each_hook Fixture.logger (Fixture.world [3; 4; 5])
                   (λ t, if decide (t = 4) then None else Some (Returns Fulfilled)) _)).
  intros t e _. by destruct (decide (t = 4)).
Defined.

(** X9 (Logger.shutdown): a failing hook is not isolated the way a failing
    [write] is: when the promise of one registered transport's hook is
    rejected (and no hook throws), the promise of [shutdown] is rejected. *)
Theorem shutdown_rejection_propagates lg w hooks t e :
  (∀ t' e', t' ∈ Logger.transports_of lg w → hooks t' ≠ Some (Throws e')) →
  t ∈ Logger.transports_of lg w →
  hooks t = Some (Returns (Rejected e)) →
  ∃ e', (Logger.shutdown lg w hooks).1 = Rejected e'.
Proof.
  intros Hsafe Ht Hh.
  destruct (map_shutdown_no_throw hooks _ Hsafe) as (ps & Hmap & Hps).
  unfold Logger.shutdown. fold (Logger.transports_of lg w). rewrite Hmap; simpl.
  apply (Promise_all_rejected ps e), Hps. by exists t.
Qed.

Lemma shutdown_rejection_propagates_witness :
  ∃ e', (Logger.shutdown Fixture.logger (Fixture.world [3; 4])
           (λ t, if decide (t = 4) then Some (Returns (Rejected Fixture.boom))
                 else Some (Returns Fulfilled))).1 = Rejected e'.
Proof.
  apply (shutdown_rejection_propagates Fixture.logger (Fixture.world [3; 4]) _ 4
           Fixture.boom).
  - intros t e _. by destruct (decide (t = 4)).
  - apply elem_of_cons; right. apply elem_of_cons; by left.
  - reflexivity.
Defined.

Lemma with_shutdown_app hooks (ts1 ts2 : list nat) :
  Logger.with_shutdown hooks (ts1 ++ ts2)
  = Logger.with_shutdown hooks ts1 ++ Logger.with_shutdown hooks ts2.
Proof. apply omap_app. Qed.

Lemma map_shutdown_throw hooks (pre : list nat) t e rest :
  (∀ t' e', t' ∈ pre → hooks t' ≠ Some (Throws e')) →
  Logger.map_shutdown (Logger.with_shutdown hooks pre ++ (t, Throws e) :: rest)
  = (inl e, filter (λ t', is_Some (hooks t')) pre ++ [t]).
Proof.
  induction pre as [|t' pre IH]; intros Hsafe; [done|].
  rewrite with_shutdown_cons.
  assert (∀ t'' e', t'' ∈ pre → hooks t'' ≠ Some (Throws e')) as Hsafe'.
  { intros t'' e' Hin. apply Hsafe, elem_of_cons. by right. }
  destruct (hooks t') as [[e'|p]|] eqn:Ht.
  - exfalso. by apply (Hsafe t' e'); [apply elem_of_cons; left|].
  - rewrite <- app_comm_cons, map_shutdown_returns, (IH Hsafe'); simpl.
    by rewrite filter_cons_True by (by rewrite Ht).
  - rewrite (IH Hsafe').
    by rewrite filter_cons_False by (rewrite Ht; by intros [? ?]).
Qed.

(** X10 (Logger.shutdown): a hook that throws ends the shutdown: the
    promise of [shutdown] is rejected with the thrown error, and the hooks
    of the transports after it in the list are never called. *)
Theorem shutdown_throw_stops lg w hooks pre t post e :
  Logger.transports_of lg w = pre ++ t :: post →
  (∀ t' e', t' ∈ pre → hooks t' ≠ Some (Throws e')) →
  hooks t = Some (Throws e) →
  Logger.shutdown lg w hooks
  = (Rejected e, filter (λ t', is_Some (hooks t')) pre ++ [t]).
Proof.
  intros Hts Hsafe Hh.
  unfold Logger.shutdown. fold (Logger.transports_of lg w). rewrite Hts.
  rewrite with_shutdown_app.
  assert (Logger.with_shutdown hooks (t :: post)
          = (t, Throws e) :: Logger.with_shutdown hooks post) as ->.
  { by rewrite with_shutdown_cons, Hh. }
  by rewrite map_shutdown_throw.
Qed.

Lemma shutdown_throw_stops_witness :
  Logger.shutdown Fixture.logger (Fixture.world [3; 4; 5])
    (λ t, if decide (t = 4) then Some (Throws Fixture.boom)
          else Some (Returns Fulfilled))
  = (Rejected Fixture.boom, [3; 4]).
Proof.
  set (hooks := λ t : nat, if decide (t = 4) then Some (Throws Fixture.boom)
                           else Some (Returns Fulfilled)).
  assert (Logger.transports_of Fixture.logger (Fixture.world [3; 4; 5])
          = [3] ++ 4 :: [5]) as Hts by reflexivity.
  assert (∀ t e, t ∈ [3] → hooks t ≠ Some (Throws e)) as Hsafe.
  { intros t e [->|Hin]%elem_of_cons; [done|by apply elem_of_nil in Hin]. }
  assert (hooks 4 = Some (Throws Fixture.boom)) as Hh by reflexivity.
  exact (shutdown_throw_stops Fixture.logger (Fixture.world [3; 4; 5]) hooks
           [3] 4 [5] Fixture.boom Hts Hsafe Hh).
Defined.

(** * Registry changes followed by a dispatch *)

Lemma log_write_registered lg w level message context err t e :
  EvWrite t e ∈ emitted w (Logger.log lg w level message context err).2 →
  t ∈ Logger.transports_of lg w.
Proof.
  destruct (Logger.shouldLog lg level) eqn:Hg.
  - rewrite log_emitted by done. intros [[=]|Hin]%elem_of_cons.
    by apply dispatch_write in Hin as (_ & Ht & _).
  - rewrite log_gated by done. unfold emitted; simpl. rewrite drop_all.
    by intros ?%elem_of_nil.
Qed.

Lemma removeTransport_list lg w transport :
  Logger.transports_of (Logger.removeTransport lg w transport).1
    (Logger.removeTransport lg w transport).2
  = filter (λ t, t ≠ transport) (Logger.transports_of lg w).
Proof.
  unfold Logger.removeTransport, Logger.transports_of; simpl.
  apply read_array_new.
Qed.

(** X11 (Logger.addTransport, Logger.log): [addTransport] itself calls
    nothing; the next dispatch that passes the gate and the filters writes
    to the former transports and then to the added one. *)
Theorem addTransport_then_log lg w transport level message context err :
  Logger.transports lg < length (arrays w) →
  Logger.shouldLog lg level = true →
  let w' := Logger.addTransport lg w transport in
  let entry := Logger.log_entry lg (clock w) level message context err in
  let fe := LogEntry.with_message entry (Logger.formatter lg entry) in
  (∀ f, f ∈ Logger.filters lg → f fe = true) →
  trace w' = trace w
  ∧ writes_of (emitted w' (Logger.log lg w' level message context err).2)
    = map (λ t, (t, fe)) (Logger.transports_of lg w ++ [transport]).
Proof.
  intros Hwf Hg w' entry fe Hall. split; [done|].
  rewrite log_writes by done.
  change (clock w') with (clock w). fold entry fe.
  rewrite (proj2 (forallb_filters _ _) Hall).
  unfold w', Logger.transports_of, Logger.addTransport.
  by rewrite read_array_push.
Qed.

Lemma addTransport_then_log_witness :
  writes_of (emitted (Logger.addTransport Fixture.logger (Fixture.world [3]) 4)
               (Logger.log Fixture.logger
                  (Logger.addTransport Fixture.logger (Fixture.world [3]) 4)
                  warn "disk almost full" None None).2)
  = map (λ t, (t, LogEntry.with_message
                    (Logger.log_entry Fixture.logger 0 warn "disk almost full"
                       None None)
                    (Logger.formatter Fixture.logger
                       (Logger.log_entry Fixture.logger 0 warn "disk almost full"
                          None None))))
      [3; 4].
Proof.
  assert (Logger.transports Fixture.logger < length (arrays (Fixture.world [3])))
    as Hwf by (simpl; lia).
  assert (Logger.shouldLog Fixture.logger warn = true) as Hgate by reflexivity.
  refine (proj2 (addTransport_then_log Fixture.logger (Fixture.world [3]) 4 warn
                   "disk almost full" None None Hwf Hgate _)).
  intros f Hf. apply list_elem_of_singleton in Hf as ->. reflexivity.
Defined.

Lemma log_trace_extends lg w level message context err :
  trace (Logger.log lg w level message context err).2
  = trace w ++ emitted w (Logger.log lg w level message context err).2.
Proof.
  assert (∃ evs, trace (Logger.log lg w level message context err).2
                 = trace w ++ evs) as [evs Hevs].
  { destruct (Logger.shouldLog lg level) eqn:Hg.
    - unfold Logger.log. rewrite Hg; simpl.
      rewrite writeToTransports_trace; simpl.
      rewrite <- app_assoc. by eexists.
    - rewrite log_gated by done. exists []. by rewrite app_nil_r. }
  by rewrite (emitted_app _ _ _ Hevs).
Qed.

Lemma log_arrays lg w level message context err :
  arrays (Logger.log lg w level message context err).2 = arrays w.
Proof.
  unfold Logger.log. destruct (Logger.shouldLog lg level); simpl; [|done].
  unfold Logger.writeToTransports.
  by destruct (Logger.every _ _ _) as [[] evs].
Qed.

Lemma addTransport_other_absent lg w added (transport : nat) :
  added ≠ transport →
  transport ∉ Logger.transports_of lg w →
  transport ∉ Logger.transports_of lg (Logger.addTransport lg w added).
Proof.
  intros Hne Hnotin. unfold Logger.transports_of, Logger.addTransport.
  destruct (decide (Logger.transports lg < length (arrays w))) as [Hwf|Hwf].
  - rewrite read_array_push by done.
    intros [Hin|Hin%list_elem_of_singleton]%elem_of_app; [done|congruence].
  - unfold array_push, read_array at 1; simpl.
    rewrite list_insert_ge by lia. done.
Qed.

(** Whatever the logger is called with next, as long as the transport is
    not added again, the trace grows by events that hold no write to it. *)
Lemma calls_no_write (transport : nat) cs :
  CallAddTransport transport ∉ cs →
  ∀ lg w, transport ∉ Logger.transports_of lg w →
  ∃ evs, trace (calls lg w cs).2 = trace w ++ evs
         ∧ ∀ e, EvWrite transport e ∉ evs.
Proof.
  induction cs as [|c cs IH]; intros Hcs lg w Hnotin.
  - exists []. split; [by rewrite app_nil_r|]. by intros e ?%elem_of_nil.
  - apply not_elem_of_cons in Hcs as [Hc Hcs]. specialize (IH Hcs).
    destruct c as [level message context err|added|removed]; simpl.
    + destruct (IH lg (Logger.log lg w level message context err).2)
        as (evs & Htrace & Hno).
      { unfold Logger.transports_of, read_array in *. by rewrite log_arrays. }
      exists (emitted w (Logger.log lg w level message context err).2 ++ evs).
      split; [by rewrite Htrace, log_trace_extends, app_assoc|].
      intros e [Hin|Hin]%elem_of_app; [|by apply (Hno e)].
      by apply log_write_registered in Hin.
    + destruct (IH lg (Logger.addTransport lg w added)) as (evs & Htrace & Hno).
      { apply addTransport_other_absent; [congruence|done]. }
      by exists evs.
    + destruct (IH (Logger.removeTransport lg w removed).1
                  (Logger.removeTransport lg w removed).2) as (evs & Htrace & Hno).
      { rewrite removeTransport_list. by intros [_ Hin]%list_elem_of_filter. }
      by exists evs.
Qed.

(** X12 (Logger.removeTransport, Logger.log, Logger.addTransport): after
    [removeTransport] of a transport, however often it had been registered,
    no [log] call of that logger writes to it again, through any later
    sequence of [log], [addTransport] and [removeTransport] calls on the
    logger in which the transport is not added again. *)
Theorem removed_never_written lg w transport cs e :
  CallAddTransport transport ∉ cs →
  let r := Logger.removeTransport lg w transport in
  EvWrite transport e ∉ emitted r.2 (calls r.1 r.2 cs).2.
Proof.
  intros Hcs r.
  destruct (calls_no_write transport cs Hcs r.1 r.2) as (evs & Htrace & Hno).
  { unfold r. rewrite removeTransport_list.
    by intros [Hne _]%list_elem_of_filter. }
  by rewrite (emitted_app _ _ _ Htrace).
Qed.

Lemma removed_never_written_witness :
  EvWrite 3
    (LogEntry.with_message
       (Logger.log_entry Fixture.logger 0 error "Failed to save" None None)
       (Logger.formatter Fixture.logger
          (Logger.log_entry Fixture.logger 0 error "Failed to save" None None)))
    ∉ emitted (Logger.removeTransport Fixture.logger (Fixture.world [3; 4; 3]) 3).2
        (calls (Logger.removeTransport Fixture.logger (Fixture.world [3; 4; 3]) 3).1
           (Logger.removeTransport Fixture.logger (Fixture.world [3; 4; 3]) 3).2
           [CallLog error "Failed to save" None None;
            CallAddTransport 5;
            CallRemoveTransport 4;
            CallLog error "Failed to save" None None]).2.
Proof.
  apply (removed_never_written Fixture.logger (Fixture.world [3; 4; 3]) 3).
  intros Hin.
  repeat (apply elem_of_cons in Hin as [Hin|Hin]; [discriminate Hin|]).
  by apply elem_of_nil in Hin.
Defined.

(** X13 (Logger.addTransport, Logger.removeTransport): adding a transport
    that was not registered and removing it again gives back the list the
    logger had. *)
Theorem addTransport_removeTransport lg w transport :
  Logger.transports lg < length (arrays w) →
  transport ∉ Logger.transports_of lg w →
  let r := Logger.removeTransport lg (Logger.addTransport lg w transport) transport in
  Logger.transports_of r.1 r.2 = Logger.transports_of lg w.
Proof.
  intros Hwf Hnew r.
  unfold r. rewrite removeTransport_list.
  unfold Logger.transports_of, Logger.addTransport.
  rewrite read_array_push by done.
  rewrite filter_app, filter_absent by done.
  rewrite filter_cons_False by (by intros ?). by rewrite app_nil_r.
Qed.

Lemma addTransport_removeTransport_witness :
  Logger.transports_of
    (Logger.removeTransport Fixture.logger
       (Logger.addTransport Fixture.logger (Fixture.world [3; 5]) 4) 4).1
    (Logger.removeTransport Fixture.logger
       (Logger.addTransport Fixture.logger (Fixture.world [3; 5]) 4) 4).2
  = [3; 5].
Proof.
  apply (addTransport_removeTransport Fixture.logger (Fixture.world [3; 5]) 4).
  - simpl. lia.
  - intros Hin. repeat (apply elem_of_cons in Hin as [Hin|Hin]; [discriminate Hin|]).
    by apply elem_of_nil in Hin.
Defined.



(** * Child loggers as the parent with a wider context *)

Lemma spread_assoc ctx extra (d : JsObject) :
  spread ctx (spread (Some (spread (Some extra) d)) ∅)
  = spread (Some (spread ctx extra)) d.
Proof.
  destruct ctx as [c|]; simpl.
  - by rewrite (right_id_L ∅ (∪)), (assoc_L (∪)).
  - by rewrite (right_id_L ∅ (∪)).
Qed.

(** X15 (Logger.child, Logger.log): a [log] call on [child(extra)] does
    exactly what the same call on the parent does with [extra] spread under
    the call-site context: same promise, same trace, same entries. *)
Theorem child_log_as_parent `{Host} lg extra w level message context err :
  Logger.log (Logger.child lg extra) w level message context err
  = Logger.log lg w level message (Some (spread context extra)) err.
Proof.
  unfold Logger.log. rewrite child_shouldLog.
  destruct (Logger.shouldLog lg level); simpl; [|done].
  assert (Logger.log_entry (Logger.child lg extra) (clock w) level message context err
          = Logger.log_entry lg (clock w) level message
              (Some (spread context extra)) err) as Hentry.
  { unfold Logger.log_entry. f_equal. f_equal.
    change (Logger.defaultContext (Logger.child lg extra))
      with (Some (spread (Some extra) (spread (Logger.defaultContext lg) ∅))).
    apply spread_assoc. }
  change (clock (emit [EvNow] w)) with (clock w). by rewrite Hentry.
Qed.

(** X16 (Logger.child): deriving a child of a child is deriving one child
    with the two extra contexts spread in that order, the later one
    winning. *)
Theorem child_of_child `{Host} lg a b :
  Logger.child (Logger.child lg a) b = Logger.child lg (spread (Some b) a).
Proof.
  unfold Logger.child, Logger.new, Logger.config; simpl. f_equal. f_equal.
  by rewrite (right_id_L ∅ (∪)), (assoc_L (∪)).
Qed.

(** * The console transport behind the default formatter *)

(** X17 (ConsoleTransport.write, Logger.defaultFormatter): the console
    transport prints its own timestamp and level before [entry.message];
    handed the entry a logger formatted with the default formatter, its
    line therefore carries that header twice, followed by the raw message,
    the context and the error stack.  The context is always passed to the
    console; the error is passed exactly at the levels error and fatal, and
    these two are the levels printed on [console.error]. *)
Theorem console_write_formatted `{Host} entry :
  let header :=
    "[" +:+ toISOString (LogEntry.timestamp entry) +:+ "] "
      +:+ toUpperCase (LogLevel_str (LogEntry.level entry)) +:+ ": " in
  let fe := LogEntry.with_message entry (Logger.defaultFormatter entry) in
  let call := ConsoleTransport.write fe in
  ConsoleTransport.text call
  = header +:+ header +:+ LogEntry.message entry
      +:+ match LogEntry.context entry with
          | Some c => " " +:+ JSON_stringify c
          | None => ""
          end
      +:+ match LogEntry.error entry with
          | Some e => " " +:+ template_str (err_stack e)
          | None => ""
          end
  ∧ ConsoleTransport.ArgContext (LogEntry.context entry)
      ∈ ConsoleTransport.args call
  ∧ (∀ e, ConsoleTransport.ArgError e ∈ ConsoleTransport.args call ↔
          e = LogEntry.error entry
          ∧ (LogEntry.level entry = error ∨ LogEntry.level entry = fatal))
  ∧ (ConsoleTransport.stream call = console_error ↔
     LogEntry.level entry = error ∨ LogEntry.level entry = fatal).
Proof.
  intros header fe call.
  assert (ConsoleTransport.text call
          = header +:+ Logger.defaultFormatter entry) as Htext.
  { unfold call, ConsoleTransport.write, header, fe; simpl.
    destruct (LogEntry.level entry); simpl; by rewrite !string_app_assoc. }
  split.
  { rewrite Htext. unfold Logger.defaultFormatter, header. cbv zeta.
    by rewrite !string_app_assoc. }
  unfold call, ConsoleTransport.write, fe; simpl.
  destruct (LogEntry.level entry); simpl.
  1-3: split; [apply elem_of_cons; by left|]; split;
    [intros e; split;
       [intros [[=]|Hin]%elem_of_cons; by apply elem_of_nil in Hin
       |by intros [_ [?|?]]]
    |split; [done|by intros [?|?]]].
  all: split; [apply elem_of_cons; right; apply elem_of_cons; by left|]; split;
    [intros e; split;
       [intros [[= ->]|[[=]|Hin]%elem_of_cons]%elem_of_cons;
          [split; [done|auto]|by apply elem_of_nil in Hin]
       |intros [-> _]; apply elem_of_cons; by left]
    |split; [auto|done]].
Qed.

(** * The second variant of the class *)

Lemma write_loop_no_throw w entry (ts : list nat) :
  (∀ t e, t ∈ ts → write (objects w t) entry ≠ Throws e) →
  SimpleLogger.write_loop w entry ts
  = (Fulfilled, map (λ t, EvWrite t entry) ts).
Proof.
  induction ts as [|t ts IH]; intros Hsafe; simpl; [done|].
  destruct (write (objects w t) entry) as [e|p] eqn:Hw.
  - exfalso. by apply (Hsafe t e); [apply elem_of_cons; left|].
  - rewrite IH; [done|]. intros t' e Ht'. apply Hsafe, elem_of_cons. by right.
Qed.

Lemma write_loop_throw w entry (pre : list nat) t post e :
  (∀ t' e', t' ∈ pre → write (objects w t') entry ≠ Throws e') →
  write (objects w t) entry = Throws e →
  SimpleLogger.write_loop w entry (pre ++ t :: post)
  = (Rejected e, map (λ t', EvWrite t' entry) (pre ++ [t])).
Proof.
  intros Hsafe Ht. induction pre as [|t' pre IH]; simpl.
  - by rewrite Ht.
  - destruct (write (objects w t') entry) as [e'|p] eqn:Hw.
    + exfalso. by apply (Hsafe t' e'); [apply elem_of_cons; left|].
    + rewrite IH; [done|]. intros t'' e' Hin. apply Hsafe, elem_of_cons. by right.
Qed.

Lemma write_loop_emit evs w entry (ts : list nat) :
  SimpleLogger.write_loop (emit evs w) entry ts = SimpleLogger.write_loop w entry ts.
Proof.
  induction ts as [|t ts IH]; simpl; [done|].
  destruct (write (objects w t) entry); [done|]. by rewrite IH.
Qed.

Lemma simple_log_emitted lg w level message context :
  let entry := LogEntry.mk level message (clock w) context None None None in
  let r := SimpleLogger.write_loop w entry (SimpleLogger.transports_of lg w) in
  SimpleLogger.log lg w level message context
  = (r.1, emit r.2 (emit [EvNow]
                      (emit [EvConsole (SimpleLogger.consoleFunction level) message] w)))
  ∧ emitted w (SimpleLogger.log lg w level message context).2
    = EvConsole (SimpleLogger.consoleFunction level) message :: EvNow :: r.2.
Proof.
  intros entry r.
  assert (SimpleLogger.log lg w level message context
          = (r.1, emit r.2 (emit [EvNow]
                     (emit [EvConsole (SimpleLogger.consoleFunction level) message] w))))
    as Hlog.
  { unfold SimpleLogger.log; cbv zeta.
    change (clock (emit [EvNow] (emit _ w))) with (clock w). fold entry.
    change (read_array (emit [EvNow] (emit _ w)) ?a) with (read_array w a).
    by rewrite !write_loop_emit. }
  split; [done|]. rewrite Hlog. apply emitted_app; simpl.
  by rewrite <- !app_assoc.
Qed.

(** X18 (the second variant's Logger.log): the second variant has no gate,
    formatter or filter: whatever the level and [minLevel], [log] prints
    the raw message on the console function of the level, and, when no
    [write] throws, calls [write] on every transport once, in list order,
    with an entry that holds the call-site context only and no error, tags
    or source; its promise is fulfilled even when the promises of the
    writes are rejected or never settle. *)
Theorem simple_log_writes_all lg w level message context :
  let entry := LogEntry.mk level message (clock w) context None None None in
  let r := SimpleLogger.log lg w level message context in
  (∀ t e, t ∈ SimpleLogger.transports_of lg w →
          write (objects w t) entry ≠ Throws e) →
  r.1 = Fulfilled
  ∧ emitted w r.2
    = EvConsole (SimpleLogger.consoleFunction level) message :: EvNow
        :: map (λ t, EvWrite t entry) (SimpleLogger.transports_of lg w).
Proof.
  intros entry r Hsafe.
  destruct (simple_log_emitted lg w level message context) as [Hlog Hevs].
  unfold r. rewrite Hevs, Hlog. fold entry.
  by rewrite write_loop_no_throw.
Qed.

Lemma simple_log_writes_all_witness :
  (SimpleLogger.log (SimpleLogger.new Fixture.config) (Fixture.world [2; 3]) debug
     "not gated" None).1 = Fulfilled.
Proof.
  refine (proj1 (simple_log_writes_all (SimpleLogger.new Fixture.config)
                   (Fixture.world [2; 3]) debug "not gated" None _)).
  intros t e Hin.
  apply elem_of_cons in Hin as [->|Hin]; [discriminate|].
  apply elem_of_cons in Hin as [->|Hin]; [discriminate|].
  by apply elem_of_nil in Hin.
Defined.

(** X19 (the second variant's Logger.log): the first transport whose
    [write] throws ends the loop: the transports before it and that one are
    written, those after it are not, and the promise of [log] is rejected
    with the thrown error. *)
Theorem simple_log_first_throw lg w level message context pre t post e :
  let entry := LogEntry.mk level message (clock w) context None None None in
  let r := SimpleLogger.log lg w level message context in
  SimpleLogger.transports_of lg w = pre ++ t :: post →
  (∀ t' e', t' ∈ pre → write (objects w t') entry ≠ Throws e') →
  write (objects w t) entry = Throws e →
  r.1 = Rejected e
  ∧ emitted w r.2
    = EvConsole (SimpleLogger.consoleFunction level) message :: EvNow
        :: map (λ t', EvWrite t' entry) (pre ++ [t]).
Proof.
  intros entry r Hts Hsafe Ht.
  destruct (simple_log_emitted lg w level message context) as [Hlog Hevs].
  unfold r. rewrite Hevs, Hlog. fold entry. rewrite Hts.
  by rewrite (write_loop_throw w entry pre t post e).
Qed.

Lemma simple_log_first_throw_witness :
  (SimpleLogger.log (SimpleLogger.new Fixture.config) (Fixture.world [3; 1; 4]) info
     "started" None).1 = Rejected Fixture.boom.
Proof.
  assert (SimpleLogger.transports_of (SimpleLogger.new Fixture.config)
            (Fixture.world [3; 1; 4]) = [3] ++ 1 :: [4]) as Hts by reflexivity.
  refine (proj1 (simple_log_first_throw (SimpleLogger.new Fixture.config)
                   (Fixture.world [3; 1; 4]) info "started" None [3] 1 [4]
                   Fixture.boom Hts _ _)).
  - intros t e [->|Hin]%elem_of_cons; [discriminate|by apply elem_of_nil in Hin].
  - reflexivity.
Defined.

(** X20 (the second variant's Logger.child and Logger.log): the context
    given to [child] is stored but never read by [log]: a call on the child
    does exactly what the same call on the parent does. *)
Theorem simple_child_context_unused lg extra w level message context :
  SimpleLogger.log (SimpleLogger.child lg extra) w level message context
  = SimpleLogger.log lg w level message context.
Proof. reflexivity. Qed.



(** * The constructor's defaults, and a write that never settles *)

(** X22 (Logger constructor, Logger.writeToTransports): a logger built
    without [filters] filters nothing: no filter is called and every
    gate-passing entry is written to every transport; and the message every
    transport is written is the answer of the configured formatter alone
    when there is one (the default formatter is not applied on top of it),
    and of the default formatter otherwise. *)
Theorem new_defaults `{Host} cfg w level message context err :
  Logger.shouldLog (Logger.new cfg) level = true →
  let lg := Logger.new cfg in
  let entry := Logger.log_entry lg (clock w) level message context err in
  let evs := emitted w (Logger.log lg w level message context err).2 in
  (LoggerConfig.filters cfg = None →
   filter_calls_of evs = []
   ∧ writes_of evs
     = map (λ t, (t, LogEntry.with_message entry (Logger.formatter lg entry)))
         (Logger.transports_of lg w))
  ∧ (∀ t e, EvWrite t e ∈ evs →
            LogEntry.message e
            = match LoggerConfig.formatter cfg with
              | Some f => f entry
              | None => Logger.defaultFormatter entry
              end).
Proof.
  intros Hg lg entry evs. split.
  - intros Hnone.
    assert (Logger.filters lg = []) as Hfs
      by (unfold lg, Logger.new; simpl; by rewrite Hnone).
    unfold evs. rewrite log_filter_calls, log_writes by done.
    fold entry. by rewrite Hfs.
  - intros t e Hin. unfold evs in Hin. rewrite log_emitted in Hin by done.
    apply elem_of_cons in Hin as [[=]|Hin].
    apply dispatch_write in Hin as (-> & _). simpl.
    fold entry. unfold lg, Logger.new; simpl.
    by destruct (LoggerConfig.formatter cfg).
Qed.

Lemma new_defaults_witness :
  filter_calls_of
    (emitted (Fixture.world [3])
       (Logger.log (@Logger.new Fixture.host (LoggerConfig.mk info 0 None None None))
          (Fixture.world [3]) warn "slow" None None).2) = [].
Proof.
  assert (Logger.shouldLog
            (@Logger.new Fixture.host (LoggerConfig.mk info 0 None None None)) warn
          = true) as Hgate by reflexivity.
  destruct (@new_defaults Fixture.host (LoggerConfig.mk info 0 None None None)
              (Fixture.world [3]) warn "slow" None None Hgate) as [Hnone _].
  exact (proj1 (Hnone eq_refl)).
Defined.

Lemma write_promises_pending w fe (ts : list nat) t :
  t ∈ ts → write (objects w t) fe = Returns Pending →
  Promise_all (map (Logger.write_promise w fe) ts) = Pending.
Proof.
  induction ts as [|t' ts IH]; simpl; [by intros ?%elem_of_nil|].
  intros [->|Hin]%elem_of_cons Hw.
  - unfold Logger.write_promise at 1. rewrite Hw.
    pose proof (write_promises_not_rejected w fe ts) as Hnr.
    destruct (Promise_all _); [done|by destruct (Hnr e)|done].
  - rewrite (IH Hin Hw).
    unfold Logger.write_promise. by destruct (write (objects w t') fe) as [e|[|e|]].
Qed.

(** X23 (Logger.writeToTransports): [log] waits for every write: when the
    entry passes the gate and the filters and the promise of one registered
    transport's [write] never settles, the promise of [log] never settles
    either, although every transport has been written to. *)
Theorem hanging_write_blocks_log lg w level message context err t :
  Logger.shouldLog lg level = true →
  let entry := Logger.log_entry lg (clock w) level message context err in
  let fe := LogEntry.with_message entry (Logger.formatter lg entry) in
  let r := Logger.log lg w level message context err in
  (∀ f, f ∈ Logger.filters lg → f fe = true) →
  t ∈ Logger.transports_of lg w →
  write (objects w t) fe = Returns Pending →
  r.1 = Pending
  ∧ writes_of (emitted w r.2) = map (λ t', (t', fe)) (Logger.transports_of lg w).
Proof.
  intros Hg entry fe r Hall Ht Hw.
  assert (Hall' := proj2 (forallb_filters _ _) Hall).
  unfold r. rewrite log_result, log_writes by done. fold entry fe.
  rewrite Hall'. split; [|done]. by apply (write_promises_pending w fe _ t).
Qed.

Lemma hanging_write_blocks_log_witness :
  (Logger.log Fixture.logger
     (mkWorld [[3; 8]]
        (λ t, if decide (t = 8) then mkTransport (λ _, Returns Pending)
              else Fixture.transport_objects t) 0 [])
     error "Failed to save" None None).1 = Pending.
Proof.
  set (w := mkWorld [[3; 8]]
              (λ t, if decide (t = 8) then mkTransport (λ _, Returns Pending)
                    else Fixture.transport_objects t) 0 []).
  assert (Logger.shouldLog Fixture.logger error = true) as Hgate by reflexivity.
  refine (proj1 (hanging_write_blocks_log Fixture.logger w error "Failed to save"
                   None None 8 Hgate _ _ _)).
  - intros f Hf. apply list_elem_of_singleton in Hf as ->. reflexivity.
  - apply elem_of_cons; right. apply elem_of_cons; by left.
  - reflexivity.
Defined.
